(** * XVIZLoaderInterface: the reactive state core of the XVIZ log loader

    A shallow embedding of [modules/core/src/loaders/xviz-loader-interface.js]
    and the properties of its attribute store, notification scheduler,
    event bus and time controller. *)

From Stdlib Require Import ZArith Lia Bool String Ascii.
From Stdlib Require Import Floats.SpecFloat.
From stdpp Require Import base option list gmap strings fin_maps pretty.

(** ** JavaScript values *)

(** Heap addresses of objects, identifiers of function values (callbacks and
    listeners), and handles returned by [requestAnimationFrame]. *)
Definition loc := positive.
Definition fn := nat.
Definition handle := positive.

(** A JavaScript number is an IEEE 754 binary64 value. *)
Definition number := spec_float.
Definition prec : Z := 53.
Definition emax : Z := 1024.

(** The objects every object literal inherits from: [Object.prototype], its
    [constructor] (the function [Object]) and its ten methods.  A property
    read on a plain object returns one of them when the object has no
    property of that name itself. *)
Inductive builtin :=
  | Object_prototype
  | Object_constructor
  | Object_hasOwnProperty
  | Object_isPrototypeOf
  | Object_propertyIsEnumerable
  | Object_toLocaleString
  | Object_toString
  | Object_valueOf
  | Object_defineGetter
  | Object_defineSetter
  | Object_lookupGetter
  | Object_lookupSetter.

#[global] Instance builtin_eq_dec : EqDecision builtin.
Proof. solve_decision. Defined.

Inductive value :=
  | VUndefined
  | VNull
  | VBool (b : bool)
  | VNum (x : number)
  | VStr (s : string)
  | VRef (r : loc)
  | VBuiltin (b : builtin).

Module Num.

Definition of_Z (z : Z) : number := binary_normalize prec emax z 0 false.
Definition of_nat (n : nat) : number := of_Z (Z.of_nat n).

Definition NaN : number := S754_nan.
Definition add (x y : number) : number := SFadd prec emax x y.

Definition ltb (x y : number) : bool := SFltb x y.
Definition leb (x y : number) : bool := SFleb x y.
Definition eqb (x y : number) : bool := SFeqb x y.
Definition le (x y : number) : Prop := leb x y = true.

(** [Number.isFinite] on a number: neither NaN nor an infinity. *)
Definition finite (x : number) : bool :=
  match x with
  | S754_zero _ | S754_finite _ _ _ => true
  | S754_infinity _ | S754_nan => false
  end.

Definition is_zero (x : number) : bool :=
  match x with S754_zero _ => true | _ => false end.

Definition is_nan (x : number) : bool :=
  match x with S754_nan => true | _ => false end.

(** [Math.min(x, y)] and [Math.max(x, y)]: NaN is contagious and -0 is
    smaller than +0. *)
Definition min (x y : number) : number :=
  match x, y with
  | S754_nan, _ | _, S754_nan => S754_nan
  | S754_zero sx, S754_zero sy => S754_zero (sx || sy)
  | _, _ => if SFltb y x then y else x
  end.

Definition max (x y : number) : number :=
  match x, y with
  | S754_nan, _ | _, S754_nan => S754_nan
  | S754_zero sx, S754_zero sy => S754_zero (sx && sy)
  | _, _ => if SFltb x y then y else x
  end.

End Num.

(** ** Operators of the language used by the loader *)

(** [ToBoolean]. *)
Definition truthy (v : value) : bool :=
  match v with
  | VUndefined | VNull => false
  | VBool b => b
  | VNum x => negb (Num.is_zero x || Num.is_nan x)
  | VStr s => negb (String.eqb s "")
  | VRef _ | VBuiltin _ => true
  end.

(** [a === b]. *)
Definition strict_equals (a b : value) : bool :=
  match a, b with
  | VUndefined, VUndefined => true
  | VNull, VNull => true
  | VBool x, VBool y => Bool.eqb x y
  | VNum x, VNum y => Num.eqb x y
  | VStr x, VStr y => String.eqb x y
  | VRef x, VRef y => Pos.eqb x y
  | VBuiltin x, VBuiltin y => bool_decide (x = y)
  | _, _ => false
  end.

(** [undefined] and [null] have no properties: reading one throws. *)
Definition nullish (v : value) : bool :=
  match v with
  | VUndefined | VNull => true
  | _ => false
  end.

(** [Number.isFinite(v)]: false for everything that is not a number. *)
Definition Number_isFinite (v : value) : bool :=
  match v with
  | VNum x => Num.finite x
  | _ => false
  end.

(** ** Objects and the heap *)

(** The functions [Object.prototype] holds, by name. *)
Definition Object_prototype_methods : gmap string builtin :=
  list_to_map
    [("constructor", Object_constructor);
     ("hasOwnProperty", Object_hasOwnProperty);
     ("isPrototypeOf", Object_isPrototypeOf);
     ("propertyIsEnumerable", Object_propertyIsEnumerable);
     ("toLocaleString", Object_toLocaleString);
     ("toString", Object_toString);
     ("valueOf", Object_valueOf);
     ("__defineGetter__", Object_defineGetter);
     ("__defineSetter__", Object_defineSetter);
     ("__lookupGetter__", Object_lookupGetter);
     ("__lookupSetter__", Object_lookupSetter)].

(** [o[k]] when the lookup arrives at [Object.prototype], for a receiver [o]
    whose prototype is [proto]: [__proto__] is an accessor that returns the
    prototype of the receiver, the other names are the functions above. *)
Definition Object_prototype_get (proto : value) (k : string) : value :=
  if String.eqb k "__proto__" then proto
  else match Object_prototype_methods !! k with
       | Some b => VBuiltin b
       | None => VUndefined
       end.

(** The prototype chain of an object whose prototype was replaced by an
    assignment to [__proto__]: it passes through ordinary objects, each with
    the properties it holds, and ends at [Object.prototype], at [null], or at
    an object of the engine or of the connector (a function, the
    synchronizer) whose properties the loader neither defines nor describes.
    Ordinary objects are never changed once they are made (the loader only
    makes new ones), so the chain is resolved when the prototype is set. *)
Inductive chain :=
  | ObjectPrototype
  | NullPrototype
  | Through (r : loc) (props : gmap string value) (rest : chain)
  | Foreign (o : value).

(** The loader stores two kinds of objects: ordinary objects used as
    mappings (metadata, streams, stream settings) and the log synchronizer,
    an external collaborator that retains the time and look-ahead last pushed
    into it.  The prototype of an ordinary object is [Object.prototype]
    ([OPlain]) unless it was replaced ([OProto]). *)
Inductive obj :=
  | OPlain (props : gmap string value)
  | OSync (time lookAhead : value)
  | OProto (proto : chain) (props : gmap string value).

Definition chars (s : string) : list string :=
  (λ c, String c "") <$> list_ascii_of_string s.

(** The own enumerable properties of a value: what [{...v}] and
    [Object.keys(v)] range over.  A string exposes its characters under
    their indices; numbers, booleans, [undefined], [null] and the objects of
    the engine expose nothing, and the fields of a synchronizer are its own
    business. *)
Definition own_props (h : gmap loc obj) (v : value) : gmap string value :=
  match v with
  | VRef r =>
      match h !! r with
      | Some (OPlain props) | Some (OProto _ props) => props
      | _ => ∅
      end
  | VStr s => list_to_map (imap (λ i c, (pretty i, VStr c)) (chars s))
  | _ => ∅
  end.

(** The object a chain starts with: what [__proto__] reads. *)
Definition chain_value (c : chain) : value :=
  match c with
  | ObjectPrototype => VBuiltin Object_prototype
  | NullPrototype => VNull
  | Through r _ _ => VRef r
  | Foreign o => o
  end.

(** A property read that continues along the chain [c], for a receiver whose
    prototype is [proto]. *)
Fixpoint chain_get (proto : value) (c : chain) (k : string) : value :=
  match c with
  | ObjectPrototype => Object_prototype_get proto k
  | NullPrototype => VUndefined
  | Through _ props rest =>
      match props !! k with
      | Some x => x
      | None => chain_get proto rest k
      end
  | Foreign _ => VUndefined
  end.

(** The enumerable properties a chain contributes to [for (k in v)]; a
    property nearer to the object hides one of the same name further away. *)
Fixpoint chain_props (c : chain) : gmap string value :=
  match c with
  | Through _ props rest => props ∪ chain_props rest
  | _ => ∅
  end.

(** What [for (k in v)] ranges over, with the value [v[k]] of every name. *)
Definition enumerable_props (h : gmap loc obj) (v : value)
    : gmap string value :=
  match v with
  | VRef r =>
      match h !! r with
      | Some (OProto c props) => props ∪ chain_props c
      | _ => own_props h v
      end
  | _ => own_props h v
  end.

(** [v[k]] where [v] has no property [k] of its own.  Described for ordinary
    objects, for [Object.prototype] itself and for the length of a string;
    what [String.prototype], [Number.prototype], the functions of the engine
    and the synchronizer hold is not described and reads as [undefined]. *)
Definition inherited (h : gmap loc obj) (v : value) (k : string) : value :=
  match v with
  | VRef r =>
      match h !! r with
      | Some (OPlain _) => Object_prototype_get (VBuiltin Object_prototype) k
      | Some (OProto c _) => chain_get (chain_value c) c k
      | _ => VUndefined
      end
  | VBuiltin Object_prototype => Object_prototype_get VNull k
  | VStr s => if String.eqb k "length"
              then VNum (Num.of_nat (String.length s)) else VUndefined
  | _ => VUndefined
  end.

(** [v[k]] for a value that is neither [undefined] nor [null]. *)
Definition get_prop (h : gmap loc obj) (v : value) (k : string) : value :=
  match own_props h v !! k with
  | Some x => x
  | None => inherited h v k
  end.

(** The chain that starts at the object [v], as [o.__proto__ = v] resolves
    it. *)
Definition chain_of (h : gmap loc obj) (v : value) : chain :=
  match v with
  | VNull => NullPrototype
  | VBuiltin Object_prototype => ObjectPrototype
  | VRef r =>
      match h !! r with
      | Some (OPlain props) => Through r props ObjectPrototype
      | Some (OProto c props) => Through r props c
      | _ => Foreign v
      end
  | _ => Foreign v
  end.

(** Whether an assignment to [__proto__] arrives at the accessor of
    [Object.prototype]: no object on the way holds a property of that name,
    and the chain does not end at [null]. *)
Fixpoint has_setter (c : chain) : bool :=
  match c with
  | ObjectPrototype | Foreign _ => true
  | NullPrototype => false
  | Through _ props rest =>
      match props !! "__proto__" with
      | Some _ => false
      | None => has_setter rest
      end
  end.

(** The accessor changes the prototype only to an object or to [null]. *)
Definition is_prototype (v : value) : bool :=
  match v with
  | VNull | VRef _ | VBuiltin _ => true
  | _ => false
  end.

Definition alloc (o : obj) (h : gmap loc obj) : loc * gmap loc obj :=
  let r := fresh (dom h) in (r, <[r := o]> h).

(** ** Callbacks, observable events and the environment *)

(** What a callback or listener does when it is invoked: a sequence of calls
    on the loader's public interface, possibly ended by an exception. *)
Inductive cmd :=
  | CallSet (key : string) (v : value)
  | CallSeek (timestamp : value)
  | CallSetLookAhead (lookAhead : value)
  | CallUpdateStreamSettings (settings : value)
  | CallSubscribe (instance : fn)
  | CallUnsubscribe (instance : fn)
  | CallOn (eventType : string) (cb : fn)
  | CallOff (eventType : string) (cb : fn)
  | CallGetStreams
  | CallGetCurrentFrame
  | CallSetMetadata (metadata : value)
  | Throw (e : value).

(** Calls that leave the loader, in the order they happen. *)
Inductive event :=
  | EvCallback (cb : fn) (eventType : string) (eventArgs : value)
  | EvListener (o : fn) (version : nat)
  | EvBump (counter : string)
  | EvSetTime (sync : loc) (timestamp : value)
  | EvSetLookAheadTimeOffset (sync : loc) (lookAhead : value)
  | EvGetCurrentFrame (sync : loc) (streamSettings : value).

Inductive exn :=
  | Error (message : string)
  | TypeError
  | Raised (e : value).

(** Everything the loader imports or receives from outside. *)
Record Env := {
  (** [getXVIZConfig().TIME_WINDOW] *)
  TIME_WINDOW : number;
  (** [Number::toString] and [StringToNumber] of the language *)
  Number_toString : number → string;
  StringToNumber : string → number;
  (** the text the engine shows for one of its functions *)
  Function_toString : builtin → string;
  (** the frame the synchronizer [sync] assembles for the time and look-ahead
      it holds and the given stream settings *)
  frame_at : loc → value → value → value → value;
  (** the body of every function value handed to the loader *)
  code : fn → list value → list cmd;
}.

Section Operators.
Context (env : Env).

(** [ToPrimitive]: an object without [valueOf]/[toString] of its own. *)
Definition to_primitive (v : value) : value :=
  match v with
  | VRef _ | VBuiltin Object_prototype => VStr "[object Object]"
  | VBuiltin b => VStr (Function_toString env b)
  | _ => v
  end.

Definition to_number (v : value) : number :=
  match v with
  | VUndefined => Num.NaN
  | VNull => Num.of_Z 0
  | VBool b => if b then Num.of_Z 1 else Num.of_Z 0
  | VNum x => x
  | VStr s => StringToNumber env s
  | VRef _ | VBuiltin Object_prototype => Num.NaN
  | VBuiltin b => StringToNumber env (Function_toString env b)
  end.

Definition to_string (v : value) : string :=
  match v with
  | VUndefined => "undefined"
  | VNull => "null"
  | VBool b => if b then "true" else "false"
  | VNum x => Number_toString env x
  | VStr s => s
  | VRef _ | VBuiltin Object_prototype => "[object Object]"
  | VBuiltin b => Function_toString env b
  end.

(** [a + b] *)
Definition js_add (a b : value) : value :=
  match to_primitive a, to_primitive b with
  | VStr s, pb => VStr (s +:+ to_string pb)
  | pa, VStr s => VStr (to_string pa +:+ s)
  | pa, pb => VNum (Num.add (to_number pa) (to_number pb))
  end.

(** Modelled from the spec: [clamp] of math.gl, the value clamping utility,
    "a pure numeric min/max bound function":
    [Math.max(min, Math.min(max, value))]. *)
Definition clamp (v lo hi : value) : value :=
  VNum (Num.max (to_number lo) (Num.min (to_number hi) (to_number v))).

End Operators.

(** ** The loader and its host *)

Definition memo := option (list value * value).

Record World := {
  (** fields of the loader instance; [callbacks] holds the arrays of the
      registry and [shadowed] the names under which the registry holds, as a
      property of its own, the function it would otherwise inherit *)
  callbacks : gmap string (list fn);
  shadowed : gset string;
  listeners : list fn;
  state : gmap string value;
  state_proto : chain;
  _version : nat;
  _updateTimer : option handle;
  (** memo cells of the selectors made by [createSelector] *)
  memo_getStreams : memo;
  memo_getLogStartTime : memo;
  memo_getLogEndTime : memo;
  memo_getCurrentFrame : memo;
  (** the host: object heap, animation-frame queue and observed calls *)
  heap : gmap loc obj;
  raf_next : handle;
  raf_pending : list handle;
  trace : list event;
}.

(** Field updates. *)
Definition with_callbacks (x : gmap string (list fn)) (w : World) : World :=
  {| callbacks := x; shadowed := shadowed w;
     listeners := listeners w; state := state w;
     state_proto := state_proto w;
     _version := _version w; _updateTimer := _updateTimer w;
     memo_getStreams := memo_getStreams w;
     memo_getLogStartTime := memo_getLogStartTime w;
     memo_getLogEndTime := memo_getLogEndTime w;
     memo_getCurrentFrame := memo_getCurrentFrame w;
     heap := heap w; raf_next := raf_next w; raf_pending := raf_pending w;
     trace := trace w |}.

Definition with_shadowed (x : gset string) (w : World) : World :=
  {| callbacks := callbacks w; shadowed := x;
     listeners := listeners w; state := state w;
     state_proto := state_proto w;
     _version := _version w; _updateTimer := _updateTimer w;
     memo_getStreams := memo_getStreams w;
     memo_getLogStartTime := memo_getLogStartTime w;
     memo_getLogEndTime := memo_getLogEndTime w;
     memo_getCurrentFrame := memo_getCurrentFrame w;
     heap := heap w; raf_next := raf_next w; raf_pending := raf_pending w;
     trace := trace w |}.

Definition with_listeners (x : list fn) (w : World) : World :=
  {| callbacks := callbacks w; shadowed := shadowed w;
     listeners := x; state := state w;
     state_proto := state_proto w;
     _version := _version w; _updateTimer := _updateTimer w;
     memo_getStreams := memo_getStreams w;
     memo_getLogStartTime := memo_getLogStartTime w;
     memo_getLogEndTime := memo_getLogEndTime w;
     memo_getCurrentFrame := memo_getCurrentFrame w;
     heap := heap w; raf_next := raf_next w; raf_pending := raf_pending w;
     trace := trace w |}.

Definition with_state (x : gmap string value) (w : World) : World :=
  {| callbacks := callbacks w; shadowed := shadowed w;
     listeners := listeners w; state := x;
     state_proto := state_proto w;
     _version := _version w; _updateTimer := _updateTimer w;
     memo_getStreams := memo_getStreams w;
     memo_getLogStartTime := memo_getLogStartTime w;
     memo_getLogEndTime := memo_getLogEndTime w;
     memo_getCurrentFrame := memo_getCurrentFrame w;
     heap := heap w; raf_next := raf_next w; raf_pending := raf_pending w;
     trace := trace w |}.

Definition with_state_proto (x : chain) (w : World) : World :=
  {| callbacks := callbacks w; shadowed := shadowed w;
     listeners := listeners w; state := state w;
     state_proto := x;
     _version := _version w; _updateTimer := _updateTimer w;
     memo_getStreams := memo_getStreams w;
     memo_getLogStartTime := memo_getLogStartTime w;
     memo_getLogEndTime := memo_getLogEndTime w;
     memo_getCurrentFrame := memo_getCurrentFrame w;
     heap := heap w; raf_next := raf_next w; raf_pending := raf_pending w;
     trace := trace w |}.

Definition with_version (x : nat) (w : World) : World :=
  {| callbacks := callbacks w; shadowed := shadowed w;
     listeners := listeners w; state := state w;
     state_proto := state_proto w;
     _version := x; _updateTimer := _updateTimer w;
     memo_getStreams := memo_getStreams w;
     memo_getLogStartTime := memo_getLogStartTime w;
     memo_getLogEndTime := memo_getLogEndTime w;
     memo_getCurrentFrame := memo_getCurrentFrame w;
     heap := heap w; raf_next := raf_next w; raf_pending := raf_pending w;
     trace := trace w |}.

Definition with_updateTimer (x : option handle) (w : World) : World :=
  {| callbacks := callbacks w; shadowed := shadowed w;
     listeners := listeners w; state := state w;
     state_proto := state_proto w;
     _version := _version w; _updateTimer := x;
     memo_getStreams := memo_getStreams w;
     memo_getLogStartTime := memo_getLogStartTime w;
     memo_getLogEndTime := memo_getLogEndTime w;
     memo_getCurrentFrame := memo_getCurrentFrame w;
     heap := heap w; raf_next := raf_next w; raf_pending := raf_pending w;
     trace := trace w |}.

Definition with_heap (x : gmap loc obj) (w : World) : World :=
  {| callbacks := callbacks w; shadowed := shadowed w;
     listeners := listeners w; state := state w;
     state_proto := state_proto w;
     _version := _version w; _updateTimer := _updateTimer w;
     memo_getStreams := memo_getStreams w;
     memo_getLogStartTime := memo_getLogStartTime w;
     memo_getLogEndTime := memo_getLogEndTime w;
     memo_getCurrentFrame := memo_getCurrentFrame w;
     heap := x; raf_next := raf_next w; raf_pending := raf_pending w;
     trace := trace w |}.

Definition with_raf (n : handle) (q : list handle) (w : World) : World :=
  {| callbacks := callbacks w; shadowed := shadowed w;
     listeners := listeners w; state := state w;
     state_proto := state_proto w;
     _version := _version w; _updateTimer := _updateTimer w;
     memo_getStreams := memo_getStreams w;
     memo_getLogStartTime := memo_getLogStartTime w;
     memo_getLogEndTime := memo_getLogEndTime w;
     memo_getCurrentFrame := memo_getCurrentFrame w;
     heap := heap w; raf_next := n; raf_pending := q;
     trace := trace w |}.

Definition with_trace (x : list event) (w : World) : World :=
  {| callbacks := callbacks w; shadowed := shadowed w;
     listeners := listeners w; state := state w;
     state_proto := state_proto w;
     _version := _version w; _updateTimer := _updateTimer w;
     memo_getStreams := memo_getStreams w;
     memo_getLogStartTime := memo_getLogStartTime w;
     memo_getLogEndTime := memo_getLogEndTime w;
     memo_getCurrentFrame := memo_getCurrentFrame w;
     heap := heap w; raf_next := raf_next w; raf_pending := raf_pending w;
     trace := x |}.

(** A memo cell is addressed by the selector that owns it. *)
Inductive cell := CStreams | CLogStartTime | CLogEndTime | CCurrentFrame.

Definition read_memo (c : cell) (w : World) : memo :=
  match c with
  | CStreams => memo_getStreams w
  | CLogStartTime => memo_getLogStartTime w
  | CLogEndTime => memo_getLogEndTime w
  | CCurrentFrame => memo_getCurrentFrame w
  end.

Definition write_memo (c : cell) (x : memo) (w : World) : World :=
  {| callbacks := callbacks w; shadowed := shadowed w;
     listeners := listeners w; state := state w;
     state_proto := state_proto w;
     _version := _version w; _updateTimer := _updateTimer w;
     memo_getStreams :=
       match c with CStreams => x | _ => memo_getStreams w end;
     memo_getLogStartTime :=
       match c with CLogStartTime => x | _ => memo_getLogStartTime w end;
     memo_getLogEndTime :=
       match c with CLogEndTime => x | _ => memo_getLogEndTime w end;
     memo_getCurrentFrame :=
       match c with CCurrentFrame => x | _ => memo_getCurrentFrame w end;
     heap := heap w; raf_next := raf_next w; raf_pending := raf_pending w;
     trace := trace w |}.

Definition log (e : event) (w : World) : World := with_trace (trace w ++ [e]) w.

(** ** Computations that may throw *)

Inductive outcome (A : Type) :=
  | Normal (a : A) (w : World)
  | Thrown (e : exn) (w : World).
Arguments Normal {A} a w.
Arguments Thrown {A} e w.

Definition M (A : Type) : Type := World → outcome A.

Definition ret {A} (a : A) : M A := λ w, Normal a w.
Definition throw {A} (e : exn) : M A := λ w, Thrown e w.
Definition bind {A B} (m : M A) (k : A → M B) : M B :=
  λ w, match m w with
       | Normal a w' => k a w'
       | Thrown e w' => Thrown e w'
       end.
(** A state change that cannot fail, and a read of the state. *)
Definition modify (f : World → World) : M unit := λ w, Normal tt (f w).
Definition gets {A} (f : World → A) : M A := λ w, Normal (f w) w.

#[global] Instance M_ret : MRet M := @ret.
#[global] Instance M_bind : MBind M := λ A B k m, bind m k.

(** The world an outcome ends in. *)
Definition final {A} (o : outcome A) : World :=
  match o with Normal _ w | Thrown _ w => w end.

(** ** The host's scheduling primitive *)

(** [requestAnimationFrame(this._update)]: the host issues the next callback
    identifier (identifiers start at 1 and are never reused) and queues the
    callback for the next frame.  The loader only ever passes its own
    [_update], so the queue holds handles. *)
Definition requestAnimationFrame (w : World) : handle * World :=
  let h := raf_next w in
  (h, with_raf (Pos.succ h) (raf_pending w ++ [h]) w).

(** ** XVIZLoaderInterface *)

(** [new XVIZLoaderInterface(options)] on a fresh host. [options] and [_debug]
    are not read by any method of the class. *)
Definition constructor : World :=
  {| callbacks := ∅; shadowed := ∅; listeners := []; state := ∅;
     state_proto := ObjectPrototype;
     _version := 0; _updateTimer := None;
     memo_getStreams := None; memo_getLogStartTime := None;
     memo_getLogEndTime := None; memo_getCurrentFrame := None;
     heap := ∅; raf_next := 1%positive; raf_pending := []; trace := [] |}.

(** [indexOf]/[findIndex] by reference identity, then [splice(index, 1)]. *)
Definition indexOf (f : fn) (l : list fn) : option nat :=
  fst <$> list_find (λ o, o = f) l.

Definition remove_first (f : fn) (l : list fn) : list fn :=
  match indexOf f l with
  | Some index => delete index l
  | None => l
  end.

(** [this.callbacks[eventType]]: the array registered under the event type,
    or else what the registry, an object literal, inherits under that name:
    a function of [Object.prototype], or [Object.prototype] itself for
    [__proto__]. *)
Inductive registered :=
  | Registered (cbs : list fn)
  | Inherited (o : value)
  | Unregistered.

Definition callbacks_get (eventType : string) (w : World) : registered :=
  match callbacks w !! eventType with
  | Some cbs => Registered cbs
  | None =>
      match Object_prototype_get (VBuiltin Object_prototype) eventType with
      | VUndefined => Unregistered
      | o => Inherited o
      end
  end.

(** [on]: under an inherited name [this.callbacks[eventType] || []] is the
    inherited object.  The assignment stores it in the registry under the
    name it was read from (for [__proto__] it arrives at the accessor and
    sets the prototype the registry already has); the object has no [push],
    so the call is a [TypeError]. *)
Definition on (eventType : string) (cb : fn) : M unit :=
  r ← gets (callbacks_get eventType);
  match r with
  | Registered cbs =>
      modify (λ w, with_callbacks (<[eventType := cbs ++ [cb]]> (callbacks w)) w)
  | Unregistered =>
      modify (λ w, with_callbacks (<[eventType := [cb]]> (callbacks w)) w)
  | Inherited _ =>
      (if String.eqb eventType "__proto__" then mret tt
       else modify (λ w, with_shadowed ({[ eventType ]} ∪ shadowed w) w));;
      throw TypeError
  end.

(** [off]: an inherited object is truthy and has no [indexOf]. *)
Definition off (eventType : string) (cb : fn) : M unit :=
  r ← gets (callbacks_get eventType);
  match r with
  | Registered cbs =>
      modify (λ w, with_callbacks
                     (<[eventType := remove_first cb cbs]> (callbacks w)) w)
  | Unregistered => mret tt
  | Inherited _ => throw TypeError
  end.

Definition subscribe (instance : fn) (w : World) : World :=
  with_listeners (listeners w ++ [instance]) w.

Definition unsubscribe (instance : fn) (w : World) : World :=
  with_listeners (remove_first instance (listeners w)) w.

(** [this.state[key]]: the attribute object is an object literal, so a name
    it does not hold itself is looked up along its prototype chain. *)
Definition get (key : string) (w : World) : value :=
  match state w !! key with
  | Some v => v
  | None => chain_get (chain_value (state_proto w)) (state_proto w) key
  end.

(** [this.state[key] = v]: the attribute object gets or updates a property of
    its own, except that a first assignment to [__proto__] arrives at the
    accessor of [Object.prototype], which replaces the prototype of the
    attribute object when [v] is an object or [null] and does nothing
    otherwise. *)
Definition assign (key : string) (v : value) (w : World) : World :=
  match state w !! key with
  | Some _ => with_state (<[key := v]> (state w)) w
  | None =>
      if String.eqb key "__proto__" && has_setter (state_proto w) then
        if is_prototype v then with_state_proto (chain_of (heap w) v) w
        else w
      else with_state (<[key := v]> (state w)) w
  end.

Definition set (key : string) (v : value) (w : World) : World :=
  if negb (strict_equals (get key w) v) then
    let w := assign key v w in
    let w := with_version (S (_version w)) w in
    match _updateTimer w with
    | None =>
        let '(h, w) := requestAnimationFrame w in
        with_updateTimer (Some h) w
    | Some _ => w
    end
  else w.

(** *** Connection API *)

Definition isOpen : M value := ret (VBool false).
Definition connect : M unit := throw (Error "not implemented").
Definition close : M unit := throw (Error "not implemented").
Definition getBufferRange : M value := throw (Error "not implemented").

(** *** Selectors *)

Fixpoint same_inputs (prev cur : list value) : bool :=
  match prev, cur with
  | [], [] => true
  | p :: prev, c :: cur => strict_equals p c && same_inputs prev cur
  | _, _ => false
  end.

Fixpoint eval_inputs (inputs : list (M value)) : M (list value) :=
  match inputs with
  | [] => mret []
  | input :: rest => v ← input; vs ← eval_inputs rest; mret (v :: vs)
  end.

(** Modelled from the spec: [createSelector] of utils/create-selector, the
    MemoizedSelector.  Every invocation evaluates the input producers; the
    combinator runs on the first invocation and whenever an input differs from
    the previous invocation (by identity for objects, by equality for
    primitives); otherwise the cached output is returned.  The cell is written
    only when the combinator has returned. *)
Definition createSelector (c : cell) (inputs : list (M value))
    (combinator : list value → M value) : M value :=
  ins ← eval_inputs inputs;
  cached ← gets (read_memo c);
  match cached with
  | Some (prev, out) =>
      if same_inputs prev ins then mret out
      else out ← combinator ins; modify (write_memo c (Some (ins, out)));; mret out
  | None =>
      out ← combinator ins; modify (write_memo c (Some (ins, out)));; mret out
  end.

Definition getCurrentTime : M value := gets (get "timestamp").
Definition getLookAhead : M value := gets (get "lookAhead").
Definition getMetadata : M value := gets (get "metadata").
Definition getStreamSettings : M value := gets (get "streamSettings").
Definition getLogSynchronizer : M value := gets (get "logSynchronizer").
Definition _getStreams : M value := gets (get "streams").

(** A new object enters the heap. *)
Definition new_object (o : obj) : M value :=
  λ w, let '(r, h) := alloc o (heap w) in
       Normal (VRef r) (with_heap h w).

(** The streams whose setting is truthy: the names [for (streamName in
    streams)] visits for which [streamSettings[streamName]] is truthy, each
    with [streams[streamName]]. *)
Definition visible (h : gmap loc obj) (streamSettings streams : value)
    : gmap string value :=
  filter (λ kv, truthy (get_prop h streamSettings kv.1) = true)
         (enumerable_props h streams).

(** [const result = {}] after [result[streamName] = streams[streamName]] for
    every visible stream: each assignment gives [result] a property of its
    own, except the one to [__proto__], which arrives at the accessor of
    [Object.prototype]. *)
Definition filtered (h : gmap loc obj) (streamSettings streams : value)
    : obj :=
  let kept := visible h streamSettings streams in
  match kept !! "__proto__" with
  | Some v =>
      if is_prototype v
      then OProto (chain_of h v) (delete "__proto__" kept)
      else OPlain (delete "__proto__" kept)
  | None => OPlain kept
  end.
Arguments filtered : simpl never.

Definition getStreams : M value :=
  createSelector CStreams [getStreamSettings; _getStreams]
    (λ ins,
       match ins with
       | [streamSettings; streams] =>
           if negb (truthy streamSettings) || negb (truthy streams)
           then mret streams
           else h ← gets heap; new_object (filtered h streamSettings streams)
       | _ => mret VUndefined
       end).

(** Modelled from the spec: the log synchronizer consumed by the loader,
    [setTime(timestamp)], [setLookAheadTimeOffset(offset)] and
    [getCurrentFrame(streamSettings)]; it "retains the last-set
    time/look-ahead across calls".  Calling one of these on a value that is not
    a synchronizer is a [TypeError]. *)
Definition synchronizer (v : value) : M (loc * value * value) :=
  λ w, match v with
       | VRef r =>
           match heap w !! r with
           | Some (OSync time lookAhead) => Normal (r, time, lookAhead) w
           | _ => Thrown TypeError w
           end
       | _ => Thrown TypeError w
       end.

Definition sync_setTime (sync timestamp : value) : M unit :=
  '(r, _, lookAhead) ← synchronizer sync;
  modify (λ w, log (EvSetTime r timestamp)
                   (with_heap (<[r := OSync timestamp lookAhead]> (heap w)) w)).

Definition sync_setLookAheadTimeOffset (sync offset : value) : M unit :=
  '(r, time, _) ← synchronizer sync;
  modify (λ w, log (EvSetLookAheadTimeOffset r offset)
                   (with_heap (<[r := OSync time offset]> (heap w)) w)).

Section Loader.
Context (env : Env).

Definition sync_getCurrentFrame (sync streamSettings : value) : M value :=
  '(r, time, lookAhead) ← synchronizer sync;
  modify (log (EvGetCurrentFrame r streamSettings));;
  mret (frame_at env r time lookAhead streamSettings).

(** [metadata && metadata.start_time &&
     metadata.start_time + getXVIZConfig().TIME_WINDOW] *)
Definition logStartTime (h : gmap loc obj) (metadata : value) : value :=
  if truthy metadata then
    let start_time := get_prop h metadata "start_time" in
    if truthy start_time
    then js_add env start_time (VNum (TIME_WINDOW env))
    else start_time
  else metadata.

(** [metadata && metadata.end_time] *)
Definition logEndTime (h : gmap loc obj) (metadata : value) : value :=
  if truthy metadata then get_prop h metadata "end_time" else metadata.

Definition getLogStartTime : M value :=
  createSelector CLogStartTime [getMetadata]
    (λ ins,
       match ins with
       | [metadata] => h ← gets heap; mret (logStartTime h metadata)
       | _ => mret VUndefined
       end).

Definition getLogEndTime : M value :=
  createSelector CLogEndTime [getMetadata]
    (λ ins,
       match ins with
       | [metadata] => h ← gets heap; mret (logEndTime h metadata)
       | _ => mret VUndefined
       end).

Definition getBufferStart : M value := getLogStartTime.
Definition getBufferEnd : M value := getLogEndTime.

Definition getCurrentFrame : M value :=
  createSelector CCurrentFrame
    [getLogSynchronizer; getStreamSettings; getCurrentTime; getLookAhead;
     getStreams]
    (λ ins,
       match ins with
       | [logSynchronizer; streamSettings; timestamp; lookAhead; _] =>
           if truthy logSynchronizer && Number_isFinite timestamp then
             sync_setTime logSynchronizer timestamp;;
             sync_setLookAheadTimeOffset logSynchronizer lookAhead;;
             sync_getCurrentFrame logSynchronizer streamSettings
           else mret VNull
       | _ => mret VUndefined
       end).

(** *** Time controller *)

Definition seek (timestamp : value) : M unit :=
  metadata ← getMetadata;
  timestamp ←
    (if truthy metadata then
       startTime ← getLogStartTime;
       endTime ← getLogEndTime;
       if Number_isFinite startTime && Number_isFinite endTime
       then mret (clamp env timestamp startTime endTime)
       else mret timestamp
     else mret timestamp);
  modify (set "timestamp" timestamp).

Definition setLookAhead (lookAhead : value) : M unit :=
  modify (set "lookAhead" lookAhead).

(** [{...streamSettings, ...settings}]: a new object; the properties of
    [settings] win. *)
Definition updateStreamSettings (settings : value) : M unit :=
  streamSettings ← gets (get "streamSettings");
  h ← gets heap;
  merged ←
    new_object (OPlain (own_props h settings ∪ own_props h streamSettings));
  modify (set "streamSettings" merged).

Definition _setMetadata (metadata : value) : M unit :=
  modify (set "metadata" metadata);;
  (if nullish metadata then throw TypeError else mret tt);;
  h ← gets heap;
  let streams := get_prop h metadata "streams" in
  (if truthy streams && (0 <? size (own_props h streams))%nat
   then modify (set "streamSettings" streams) else mret tt);;
  timestamp ← gets (get "timestamp");
  let newTimestamp :=
    if Number_isFinite timestamp then timestamp
    else get_prop h metadata "start_time" in
  if Number_isFinite newTimestamp then seek newTimestamp else mret tt.

(** *** Invoking function values *)

Definition exec (c : cmd) : M unit :=
  match c with
  | CallSet key v => modify (set key v)
  | CallSeek timestamp => seek timestamp
  | CallSetLookAhead lookAhead => setLookAhead lookAhead
  | CallUpdateStreamSettings settings => updateStreamSettings settings
  | CallSubscribe instance => modify (subscribe instance)
  | CallUnsubscribe instance => modify (unsubscribe instance)
  | CallOn eventType cb => on eventType cb
  | CallOff eventType cb => off eventType cb
  | CallGetStreams => getStreams;; mret tt
  | CallGetCurrentFrame => getCurrentFrame;; mret tt
  | CallSetMetadata metadata => _setMetadata metadata
  | Throw e => throw (Raised e)
  end.

Fixpoint run (body : list cmd) : M unit :=
  match body with
  | [] => mret tt
  | c :: rest => exec c;; run rest
  end.

Definition call (f : fn) (args : list value) : M unit := run (code env f args).

(** *** Event bus *)

(** [for (const cb of callbacks) cb(eventType, eventArgs)].  The iterator
    walks the registered array itself, so callbacks added or removed by a
    callback are seen by the loop; [fuel] bounds the number of calls. *)
Fixpoint emit_loop (fuel : nat) (eventType : string) (eventArgs : value)
    (index : nat) (w : World) : option (outcome unit) :=
  match fuel with
  | 0 => None
  | S fuel =>
      match default [] (callbacks w !! eventType) !! index with
      | None => Some (Normal tt w)
      | Some cb =>
          match call cb [VStr eventType; eventArgs]
                     (log (EvCallback cb eventType eventArgs) w) with
          | Normal _ w => emit_loop fuel eventType eventArgs (S index) w
          | Thrown e w => Some (Thrown e w)
          end
      end
  end.

(** Modelled from the spec: [stats.bump] of utils/stats, which "increments an
    observability counter keyed by loader-<eventType>". *)
Definition stats_bump (counter : string) : M unit :=
  modify (log (EvBump counter)).

(** [emit]: an inherited object is truthy and not iterable, so the loop is a
    [TypeError] and the counter is not reached. *)

Definition emit (fuel : nat) (eventType : string) (eventArgs : value)
    (w : World) : option (outcome unit) :=
  match
    match callbacks_get eventType w with
    | Registered _ => emit_loop fuel eventType eventArgs 0 w
    | Inherited _ => Some (Thrown TypeError w)
    | Unregistered => Some (Normal tt w)
    end
  with
  | Some (Normal _ w) => Some (stats_bump ("loader-" +:+ eventType) w)
  | r => r
  end.

(** *** Private actions *)

(** [this.listeners.forEach(o => o(this._version))]: the length is read
    once, every index below it that is still present is visited, and the
    version is read again for every listener. *)
Fixpoint forEach_listener (remaining index : nat) : M unit :=
  match remaining with
  | 0 => mret tt
  | S remaining =>
      o ← gets (λ w, listeners w !! index);
      match o with
      | Some o =>
          v ← gets _version;
          modify (log (EvListener o v));;
          call o [VNum (Num.of_nat v)];;
          forEach_listener remaining (S index)
      | None => forEach_listener remaining (S index)
      end
  end.

Definition _update : M unit :=
  modify (with_updateTimer None);;
  len ← gets (λ w, length (listeners w));
  forEach_listener len 0.

(** One animation frame of the host: the callbacks queued before the frame
    run in order; an exception thrown by one of them is reported by the host
    and does not stop the others. *)
Fixpoint run_callbacks (queued : list handle) (w : World) : World :=
  match queued with
  | [] => w
  | _ :: queued => run_callbacks queued (final (_update w))
  end.

Definition animation_frame (w : World) : World :=
  run_callbacks (raf_pending w) (with_raf (raf_next w) [] w).

End Loader.

(** A burst of writes within one synchronous turn. *)
Definition burst (writes : list (string * value)) (w : World) : World :=
  foldl (λ w kv, set kv.1 kv.2 w) w writes.

(** ** Vocabulary of the properties *)

(** The value a selector call returns. *)
Definition returned (m : M value) (w : World) : value :=
  match m w with
  | Normal v _ => v
  | Thrown _ _ => VUndefined
  end.

(** A write that changes the stored value. *)
Definition effective (key : string) (v : value) (w : World) : bool :=
  negb (strict_equals (get key w) v).

Fixpoint effective_writes (writes : list (string * value)) (w : World) : nat :=
  match writes with
  | [] => 0
  | (key, v) :: writes =>
      (if effective key v w then 1 else 0) + effective_writes writes (set key v w)
  end.

(** The loader's handle and the host's queue agree: at most one tick is
    pending, and it is the one the loader remembers. *)
Definition sched_ok (w : World) : Prop :=
  match _updateTimer w with
  | None => raf_pending w = []
  | Some h => raf_pending w = [h] ∧ (h < raf_next w)%positive
  end.

(** A reference is allocated when the heap holds its object. *)
Definition allocated (h : gmap loc obj) (v : value) : Prop :=
  match v with
  | VRef r => is_Some (h !! r)
  | _ => True
  end.

(** The chain passes through ordinary objects only: it does not arrive at an
    object of the engine or of the connector, whose answer to a read or to
    an assignment the model does not describe. *)
Fixpoint ordinary (c : chain) : bool :=
  match c with
  | Foreign _ => false
  | Through _ _ rest => ordinary rest
  | _ => true
  end.

(** What an object of the heap is after a step: an ordinary object is there
    unchanged, a synchronizer is still a synchronizer. *)
Definition survives (o : obj) (r : loc) (w' : World) : Prop :=
  match o with
  | OSync _ _ => ∃ time lookAhead, heap w' !! r = Some (OSync time lookAhead)
  | _ => heap w' !! r = Some o
  end.

(** Numbers as values. *)
Definition num (z : Z) : value := VNum (Num.of_Z z).

(** [{...}] object literals evaluated by a caller. *)
Definition literal (props : gmap string value) (w : World) : value * World :=
  let '(r, h) := alloc (OPlain props) (heap w) in (VRef r, with_heap h w).

(** Everything of a world except the heap and the memo cells. *)
Definition core (w : World) :=
  (callbacks w, shadowed w, listeners w, state w, state_proto w, _version w,
   _updateTimer w, raf_next w, raf_pending w, trace w).

(** The names every object literal inherits something under. *)
Definition inherited_name (k : string) : bool :=
  match Object_prototype_get (VBuiltin Object_prototype) k with
  | VUndefined => false
  | _ => true
  end.

(** The calls a listener can make without touching the subscriber list,
    the trace or throwing, and the calls a callback can make without touching
    the callback registry, the trace or throwing.  [on] and [off] throw for
    the names the registry inherits. *)
Definition leaves_listeners (c : cmd) : bool :=
  match c with
  | CallSubscribe _ | CallUnsubscribe _ | Throw _ => false
  | CallOn eventType _ | CallOff eventType _ => negb (inherited_name eventType)
  | CallGetCurrentFrame | CallSetMetadata _ => false
  | _ => true
  end.

Definition leaves_callbacks (c : cmd) : bool :=
  match c with
  | CallOn _ _ | CallOff _ _ | Throw _ => false
  | CallGetCurrentFrame | CallSetMetadata _ => false
  | _ => true
  end.

(** The calls that do not assign to [__proto__]. *)
Definition leaves_prototype (c : cmd) : bool :=
  match c with
  | CallSet key _ => negb (String.eqb key "__proto__")
  | _ => true
  end.

(** What a write does to the scheduler. *)
Definition armed (w w' : World) : Prop :=
  match _updateTimer w with
  | None =>
      _updateTimer w' = Some (raf_next w) ∧
      raf_pending w' = raf_pending w ++ [raf_next w] ∧
      raf_next w' = Pos.succ (raf_next w)
  | Some h =>
      _updateTimer w' = Some h ∧ raf_pending w' = raf_pending w ∧
      raf_next w' = raf_next w
  end.

Definition write_step (w w' : World) : Prop :=
  listeners w' = listeners w ∧ trace w' = trace w ∧
  ((_version w' = _version w ∧ _updateTimer w' = _updateTimer w ∧
    raf_pending w' = raf_pending w ∧ raf_next w' = raf_next w)
   ∨ (_version w < _version w' ∧ armed w w')).

(** Example environment: a time window of 5, frames that are their own time,
    and the given function bodies. *)
Definition example_env (bodies : fn → list value → list cmd) : Env :=
  {| TIME_WINDOW := Num.of_Z 5;
     Number_toString := λ _, "";
     StringToNumber := λ _, Num.NaN;
     Function_toString := λ _, "function () { [native code] }";
     frame_at := λ _ time _ _, time;
     code := bodies |}.

Definition no_code : fn → list value → list cmd := λ _ _, [].

(** The value [seek] passes on to the store. *)
Definition seek_target (env : Env) (w : World) (timestamp : value) : value :=
  if truthy (get "metadata" w) then
    let startTime := returned (getLogStartTime env) w in
    let endTime := returned getLogEndTime w in
    if Number_isFinite startTime && Number_isFinite endTime
    then clamp env timestamp startTime endTime
    else timestamp
  else timestamp.

(** C2 as the specification words it, for one world and one finite
    timestamp. *)
Definition seek_claim (env : Env) (w : World) (t : number) : Prop :=
  ∀ s e w',
    truthy (get "metadata" w) = true →
    returned (getLogStartTime env) w = VNum s →
    returned getLogEndTime w = VNum e →
    Num.finite s = true → Num.finite e = true →
    seek env (VNum t) w = Normal tt w' →
    (Num.ltb t s = true → strict_equals (get "timestamp" w') (VNum s) = true) ∧
    (Num.ltb e t = true → strict_equals (get "timestamp" w') (VNum e) = true) ∧
    (Num.leb s t = true → Num.leb t e = true →
     strict_equals (get "timestamp" w') (VNum t) = true).

(** A loader that has received the metadata [{start_time, end_time}]. *)
Definition loaded (env : Env) (start_time end_time : Z) : World :=
  let '(metadata, w) :=
    literal {[ "start_time" := num start_time; "end_time" := num end_time ]}
            constructor in
  final (_setMetadata env metadata w).

(** C6 as the specification words it, for one operation: the call throws
    the "not implemented" error and leaves the world as it was. *)
Definition signals_not_implemented {A} (op : M A) (w : World) : Prop :=
  op w = Thrown (Error "not implemented") w.

(** [updateStreamSettings({a: 1})] then [updateStreamSettings({b: 2})] on a
    new loader; each argument is an object literal of the caller. *)
Definition settings_a_then_b : World :=
  let '(a, w) := literal {[ "a" := num 1 ]} constructor in
  let w := final (updateStreamSettings a w) in
  let '(b, w) := literal {[ "b" := num 2 ]} w in
  final (updateStreamSettings b w).

(** [updateStreamSettings({a: 1})] on a new loader, and the same literal
    evaluated once more. *)
Definition settings_a : value * World :=
  let '(a, w) := literal {[ "a" := num 1 ]} constructor in
  literal {[ "a" := num 1 ]} (final (updateStreamSettings a w)).

(** What the combinator of [getStreams] yields for its inputs. *)
Definition streams_result (h : gmap loc obj) (streamSettings streams out : value)
    : Prop :=
  if truthy streamSettings && truthy streams
  then ∃ r, out = VRef r ∧
            h !! r = Some (filtered h streamSettings streams)
  else out = streams.

(** The memo cells hold what their combinators yield for the remembered
    inputs, and the remembered inputs are allocated. *)
Definition streams_memo_coherent (w : World) : Prop :=
  ∀ ins out, memo_getStreams w = Some (ins, out) →
    ∃ streamSettings streams,
      ins = [streamSettings; streams] ∧
      allocated (heap w) streamSettings ∧ allocated (heap w) streams ∧
      streams_result (heap w) streamSettings streams out.

Definition start_memo_coherent (env : Env) (w : World) : Prop :=
  ∀ ins out, memo_getLogStartTime w = Some (ins, out) →
    ∃ metadata,
      ins = [metadata] ∧ allocated (heap w) metadata ∧
      out = logStartTime env (heap w) metadata.

Definition end_memo_coherent (w : World) : Prop :=
  ∀ ins out, memo_getLogEndTime w = Some (ins, out) →
    ∃ metadata,
      ins = [metadata] ∧ allocated (heap w) metadata ∧
      out = logEndTime (heap w) metadata.

(** A loader holding three streams and the settings
    [{"/a": true, "/b": false}]; ["/c"] has no setting. *)
Definition three_streams : World :=
  let '(a, w) := literal {[ "x" := num 1 ]} constructor in
  let '(streams, w) :=
    literal {[ "/a" := a; "/b" := num 2; "/c" := num 3 ]} w in
  let '(settings, w) :=
    literal {[ "/a" := VBool true; "/b" := VBool false ]} w in
  set "streamSettings" settings (set "streams" streams w).

(** A loader holding the streams [{toString: 1, "/a": 2}] and the settings
    [{"/a": false}]: no stream is enabled. *)
Definition inherited_stream_name : World :=
  let '(streams, w) :=
    literal {[ "toString" := num 1; "/a" := num 2 ]} constructor in
  let '(settings, w) := literal {[ "/a" := VBool false ]} w in
  set "streamSettings" settings (set "streams" streams w).

(** C10 as the specification words it, for the streams that have no setting:
    when both attributes are present, a stream absent from [streamSettings]
    is excluded from what [getStreams] returns. *)
Definition excludes_unset_streams (w : World) : Prop :=
  truthy (get "streamSettings" w) = true →
  truthy (get "streams" w) = true →
  ∀ v w' k,
    getStreams w = Normal v w' →
    own_props (heap w) (get "streamSettings" w) !! k = None →
    own_props (heap w') v !! k = None.

(** The values whose properties the model describes in full: ordinary
    objects that inherit from ordinary objects only, and [Object.prototype]. *)
Definition described (h : gmap loc obj) (v : value) : bool :=
  match v with
  | VRef r =>
      match h !! r with
      | Some (OPlain _) => true
      | Some (OProto c _) => ordinary c
      | _ => false
      end
  | VBuiltin Object_prototype => true
  | _ => false
  end.

(** The entries [getStreams] keeps, for one world: as a function of
    [streamSettings[name]], and spelled out for settings that are an object
    with the original prototype. *)
Definition keeps (w : World) (v : value) (w' : World) : Prop :=
  let ss := get "streamSettings" w in
  let st := get "streams" w in
  if truthy ss && truthy st then
    ∃ r,
      v = VRef r ∧ is_Some (heap w' !! r) ∧
      (described (heap w) ss = true → described (heap w) st = true →
       ∀ k, k ≠ "__proto__" →
         own_props (heap w') v !! k =
         if truthy (get_prop (heap w) ss k)
         then enumerable_props (heap w) st !! k else None) ∧
      (∀ rs settings,
         ss = VRef rs → heap w !! rs = Some (OPlain settings) →
         described (heap w) st = true →
         ∀ k, k ≠ "__proto__" →
           own_props (heap w') v !! k =
           match settings !! k with
           | Some setting =>
               if truthy setting then enumerable_props (heap w) st !! k
               else None
           | None =>
               if inherited_name k then enumerable_props (heap w) st !! k
               else None
           end)
  else v = st ∨ strict_equals v st = true.

(** The inputs of [getCurrentFrame], and what makes a selector run its
    combinator: no remembered inputs, or one that differs. *)
Definition frame_inputs (w : World) : list value :=
  [get "logSynchronizer" w; get "streamSettings" w; get "timestamp" w;
   get "lookAhead" w; returned getStreams w].

Definition recomputes (c : cell) (ins : list value) (w : World) : Prop :=
  match read_memo c w with
  | Some (prev, _) => same_inputs prev ins = false
  | None => True
  end.

(** A synchronizer made by the connector and handed to the loader. *)
Definition new_synchronizer (w : World) : value * World :=
  let '(r, h) := alloc (OSync VUndefined VUndefined) (heap w) in
  (VRef r, with_heap h w).

Definition playing : World :=
  let '(sync, w) := new_synchronizer constructor in
  set "lookAhead" (num 2) (set "timestamp" (num 7) (set "logSynchronizer" sync w)).

(** C7 as the specification words it: every callback registered for the
    event is invoked by the [emit] call. *)
Definition emit_reaches_all (env : Env) (fuel : nat) (eventType : string)
    (eventArgs : value) (w : World) : Prop :=
  ∀ cb, cb ∈ default [] (callbacks w !! eventType) →
    ∃ o, emit env fuel eventType eventArgs w = Some o ∧
         EvCallback cb eventType eventArgs ∈ trace (final o).

(** The loader after [on(eventType, cb)] for each callback in turn. *)
Definition registering (eventType : string) (cbs : list fn) (w : World)
    : World :=
  foldl (λ w cb, final (on eventType cb w)) w cbs.

(** Callback 0 throws, callback 1 does nothing; both listen to [update]. *)
Definition thrower : fn → list value → list cmd :=
  λ f _, match f with 0 => [Throw (VStr "boom")] | _ => [] end.

Definition two_callbacks : World := registering "update" [0; 1] constructor.

(** C1 as the specification words it, for the flush of one burst: every
    subscribed listener is invoked exactly once, with the final generation of
    the burst. *)
Definition notifies_with_final_generation (env : Env) (w : World) : Prop :=
  trace (animation_frame env w) =
  trace w ++ ((λ o, EvListener o (_version w)) <$> listeners w).

(** The listeners [ls] notified one after the other, each called with the
    generation of the world it is called in. *)
Fixpoint notify (env : Env) (ls : list fn) (w : World) : World :=
  match ls with
  | [] => w
  | o :: ls =>
      notify env ls
        (final (call env o [VNum (Num.of_nat (_version w))]
                  (log (EvListener o (_version w)) w)))
  end.

(** Where a flush that started in [w0] can be: no listener has written yet,
    or one has and the tick it armed is the only one pending. *)
Definition flushing (w0 w : World) : Prop :=
  listeners w = listeners w0 ∧
  ((_version w = _version w0 ∧ _updateTimer w = None ∧
    raf_pending w = [] ∧ raf_next w = raf_next w0)
   ∨ (_version w0 < _version w ∧ _updateTimer w = Some (raf_next w0) ∧
      raf_pending w = [raf_next w0] ∧ raf_next w = Pos.succ (raf_next w0))).

(** Listener 0 writes when it is notified, listener 1 only watches. *)
Definition writer : fn → list value → list cmd :=
  λ f _, match f with 0 => [CallSet "seen" (VBool true)] | _ => [] end.

Definition two_listeners : World := subscribe 1 (subscribe 0 constructor).

(** Callback 0 registers itself again for [update] whenever it runs. *)
Definition reregistering : fn → list value → list cmd :=
  λ f _, match f with 0 => [CallOn "update" 0] | _ => [] end.

(** Listener 0 only watches, listener 1 throws, listener 2 only watches. *)
Definition failing_listener : fn → list value → list cmd :=
  λ f _, match f with 1 => [Throw (VStr "boom")] | _ => [] end.

(** Listener 1 unsubscribes itself when it is notified; the others only
    watch. *)
Definition leaving : fn → list value → list cmd :=
  λ f _, match f with 1 => [CallUnsubscribe 1] | _ => [] end.

(** * Properties *)

(** ** Order of numbers *)

Module NumFacts.
Import Num.

Ltac cmp :=
  repeat match goal with
  | H : context [Pos.compare_cont Eq ?a ?b] |- _ =>
      change (Pos.compare_cont Eq a b) with (Pos.compare a b) in H
  | |- context [Pos.compare_cont Eq ?a ?b] =>
      change (Pos.compare_cont Eq a b) with (Pos.compare a b)
  end;
  repeat match goal with
  | H : context [Z.compare ?a ?b] |- _ =>
      destruct (Z.compare_spec a b); simpl in H
  | |- context [Z.compare ?a ?b] =>
      destruct (Z.compare_spec a b); simpl
  | H : context [Pos.compare ?a ?b] |- _ =>
      destruct (Pos.compare_spec a b); simpl in H
  | |- context [Pos.compare ?a ?b] =>
      destruct (Pos.compare_spec a b); simpl
  end;
  try discriminate; try reflexivity; try lia.

Ltac cases x := destruct x as [[]|[]| |[] ? ?].

Lemma le_refl x : is_nan x = false → le x x.
Proof. unfold le, leb, SFleb. cases x; simpl; intros; cmp. Qed.

Lemma le_trans x y z : le x y → le y z → le x z.
Proof.
  unfold le, leb, SFleb. cases x; cases y; simpl; try discriminate;
    cases z; simpl; try discriminate; try reflexivity; intros; cmp.
Qed.

Lemma le_total x y : is_nan x = false → is_nan y = false → le x y ∨ le y x.
Proof.
  unfold le, leb, SFleb. cases x; cases y; simpl; try discriminate;
    intros _ _; try (left; reflexivity); try (right; reflexivity);
    cmp; auto.
Qed.

Lemma ltb_le x y : ltb x y = true ↔ le x y ∧ ¬ le y x.
Proof.
  unfold le, leb, ltb, SFleb, SFltb.
  cases x; cases y; simpl; split; try discriminate; try tauto;
    try (intros _; split; [reflexivity | discriminate]);
    try (intros [? ?]; try discriminate; try reflexivity;
         exfalso; auto; fail).
  all: cmp.
Qed.

Lemma eqb_le x y : eqb x y = true ↔ le x y ∧ le y x.
Proof.
  unfold le, leb, eqb, SFleb, SFeqb.
  cases x; cases y; simpl; split; try discriminate; try tauto;
    try (intros [? ?]; discriminate).
  all: cmp.
Qed.

Lemma le_not_nan x y : le x y → is_nan x = false ∧ is_nan y = false.
Proof. unfold le, leb, SFleb. cases x; cases y; simpl; auto; discriminate. Qed.

Lemma finite_not_nan x : finite x = true → is_nan x = false.
Proof. by destruct x. Qed.

Lemma not_ltb_le x y :
  is_nan x = false → is_nan y = false → ltb x y = false → le y x.
Proof.
  intros Hx Hy Hlt. destruct (le_total x y Hx Hy) as [Hle|]; [|done].
  destruct (leb y x) eqn:Hyx; [done|].
  assert (ltb x y = true); [|congruence].
  apply ltb_le. split; [done|]. unfold le. congruence.
Qed.

(** [Math.min] is a greatest lower bound and [Math.max] a least upper bound,
    each returning one of its arguments up to the sign of zero. *)
Lemma min_unfold x y :
  is_nan x = false → is_nan y = false →
  (∃ sx sy, x = S754_zero sx ∧ y = S754_zero sy) ∨
  min x y = if ltb y x then y else x.
Proof.
  cases x; cases y; try discriminate; intros _ _;
    try (right; reflexivity); left; eauto.
Qed.

Lemma max_unfold x y :
  is_nan x = false → is_nan y = false →
  (∃ sx sy, x = S754_zero sx ∧ y = S754_zero sy) ∨
  max x y = if ltb x y then y else x.
Proof.
  cases x; cases y; try discriminate; intros _ _;
    try (right; reflexivity); left; eauto.
Qed.

Lemma min_glb x y :
  is_nan x = false → is_nan y = false →
  le (min x y) x ∧ le (min x y) y ∧ (le x (min x y) ∨ le y (min x y)).
Proof.
  intros Hx Hy.
  destruct (min_unfold x y Hx Hy) as [(sx & sy & -> & ->)| ->];
    [destruct sx, sy; repeat split; try reflexivity; left; reflexivity|].
  destruct (ltb y x) eqn:Hlt.
  - apply ltb_le in Hlt as [H1 H2]. auto using le_refl.
  - apply not_ltb_le in Hlt; auto using le_refl.
Qed.

Lemma max_lub x y :
  is_nan x = false → is_nan y = false →
  le x (max x y) ∧ le y (max x y) ∧ (le (max x y) x ∨ le (max x y) y).
Proof.
  intros Hx Hy.
  destruct (max_unfold x y Hx Hy) as [(sx & sy & -> & ->)| ->];
    [destruct sx, sy; repeat split; try reflexivity; left; reflexivity|].
  destruct (ltb x y) eqn:Hlt.
  - apply ltb_le in Hlt as [H1 H2]. auto using le_refl.
  - apply not_ltb_le in Hlt; auto using le_refl.
Qed.

Lemma min_finite x y : finite x = true → finite y = true → finite (min x y) = true.
Proof. unfold min. cases x; cases y; try discriminate; intros _ _; simpl; try done; by destruct (SFltb _ _). Qed.

Lemma max_finite x y : finite x = true → finite y = true → finite (max x y) = true.
Proof. unfold max. cases x; cases y; try discriminate; intros _ _; simpl; try done; by destruct (SFltb _ _). Qed.

(** The three cases of clamping into an ordered interval. *)
Lemma clamp_cases t s e :
  finite t = true → finite s = true → finite e = true → le s e →
  eqb (max s (min e t))
      (if ltb t s then s else if ltb e t then e else t) = true.
Proof.
  intros Ht Hs He Hse.
  pose proof (finite_not_nan _ Ht) as Nt.
  pose proof (finite_not_nan _ Hs) as Ns.
  pose proof (finite_not_nan _ He) as Ne.
  pose proof (min_finite e t He Ht) as Hm.
  pose proof (finite_not_nan _ Hm) as Nm.
  destruct (min_glb e t Ne Nt) as (Hme & Hmt & Hm').
  destruct (max_lub s (min e t) Ns Nm) as (Hsr & Hmr & Hr').
  apply eqb_le.
  destruct (ltb t s) eqn:Hts.
  { apply ltb_le in Hts as [Hts _]. split; [|done].
    destruct Hr'; eauto using le_trans. }
  apply not_ltb_le in Hts; [|done..].
  destruct (ltb e t) eqn:Het.
  { apply ltb_le in Het as [Het Hte]. split.
    - destruct Hr'; eauto using le_trans.
    - destruct Hm'; eauto using le_trans. }
  apply not_ltb_le in Het; [|done..]. split.
  - destruct Hr'; eauto using le_trans.
  - destruct Hm'; eauto using le_trans.
Qed.

End NumFacts.

(** ** Strict equality *)

Lemma strict_equals_sym a b : strict_equals a b = strict_equals b a.
Proof.
  destruct a, b; simpl; try done.
  - by destruct b, b0.
  - unfold Num.eqb, SFeqb.
    destruct x as [[]|[]| |[] ? ?], x0 as [[]|[]| |[] ? ?]; simpl; try done;
      rewrite Z.compare_antisym;
      change (Pos.compare_cont Eq ?a ?b) with (Pos.compare a b);
      rewrite (Pos.compare_antisym m0 m);
      destruct (e0 ?= e)%Z, (m0 ?= m)%positive; done.
  - by rewrite String.eqb_sym.
  - by rewrite Pos.eqb_sym.
  - apply bool_decide_ext. split; congruence.
Qed.

Lemma strict_equals_trans a b c :
  strict_equals a b = true → strict_equals b c = true →
  strict_equals a c = true.
Proof.
  destruct a, b; simpl; try done; destruct c; simpl; try done.
  - destruct b, b0, b1; done.
  - rewrite !NumFacts.eqb_le. intros [] []. eauto using NumFacts.le_trans.
  - intros ->%String.eqb_eq. done.
  - intros ->%Pos.eqb_eq. done.
  - intros ->%bool_decide_eq_true. done.
Qed.

Lemma strict_equals_refl v :
  (∀ x, v = VNum x → Num.is_nan x = false) → strict_equals v v = true.
Proof.
  destruct v; simpl; intros H; try done.
  - by destruct b.
  - apply NumFacts.eqb_le. split; apply NumFacts.le_refl; auto.
  - apply String.eqb_refl.
  - apply Pos.eqb_refl.
  - by apply bool_decide_eq_true.
Qed.

(** Two strictly equal values are the same value unless they are zeros of
    different sign. *)
Lemma strict_equals_truthy a b :
  strict_equals a b = true → truthy a = true → a = b.
Proof.
  destruct a, b; simpl; try done.
  - by destruct b, b0.
  - unfold Num.eqb, SFeqb.
    destruct x as [[]|[]| |[] ? ?], x0 as [[]|[]| |[] ? ?]; simpl; try done;
      change (Pos.compare_cont Eq ?a ?b) with (Pos.compare a b);
      destruct (Z.compare_spec e e0); try done;
      destruct (Pos.compare_spec m m0); try done; by subst.
  - by intros ->%String.eqb_eq.
  - by intros ->%Pos.eqb_eq.
  - by intros ->%bool_decide_eq_true.
Qed.

(** ** The attribute store *)

Lemma set_same key v w : strict_equals (get key w) v = true → set key v w = w.
Proof. unfold set. by intros ->. Qed.

(** C3.  A write, or any sequence of writes, whose value equals ([===]) the
    value [get] returns for its key leaves the whole world as it was: stored
    values, generation counter, pending-tick handle and the host's queue, so
    no tick is armed.  This holds for every key, also for one that the
    attribute object inherits, where the value currently read is the
    inherited one.  (The attribute object inherits from ordinary objects
    only.) *)
Theorem unchanged_writes_are_noops (writes : list (string * value)) (w : World) :
  ordinary (state_proto w) = true →
  Forall (λ kv, strict_equals (get kv.1 w) kv.2 = true) writes →
  burst writes w = w.
Proof.
  intros _. unfold burst.
  induction 1 as [|[key v] writes Hkv _ IH]; simpl; [done|].
  by rewrite set_same.
Qed.

Lemma unchanged_writes_witness :
  let w := set "lookAhead" (num 100) constructor in
  let writes := [("lookAhead", num 100); ("timestamp", VUndefined);
                 ("constructor", VBuiltin Object_constructor)] in
  ordinary (state_proto w) = true ∧
  Forall (λ kv, strict_equals (get kv.1 w) kv.2 = true) writes ∧
  burst writes w = w.
Proof.
  intros w writes.
  assert (Ho : ordinary (state_proto w) = true) by reflexivity.
  assert (H : Forall (λ kv, strict_equals (get kv.1 w) kv.2 = true) writes)
    by (repeat constructor).
  split; [exact Ho|].
  split; [exact H | exact (unchanged_writes_are_noops writes w Ho H)].
Defined.

(** On a new loader the key [constructor] reads as the function every object
    inherits, so writing [undefined] under it is a change: the generation
    grows and a tick is armed. *)
Lemma write_under_inherited_key :
  get "constructor" constructor = VBuiltin Object_constructor ∧
  _version (set "constructor" VUndefined constructor) = 1 ∧
  _updateTimer (set "constructor" VUndefined constructor) = Some 1%positive ∧
  get "constructor" (set "constructor" VUndefined constructor) = VUndefined.
Proof. by vm_compute. Qed.

Ltac munfold :=
  unfold mbind, M_bind, bind, mret, M_ret, ret, throw, gets, modify in *.

(** An assignment touches the attribute object only. *)
Lemma assign_fields key v w :
  callbacks (assign key v w) = callbacks w ∧
  shadowed (assign key v w) = shadowed w ∧
  listeners (assign key v w) = listeners w ∧
  _version (assign key v w) = _version w ∧
  _updateTimer (assign key v w) = _updateTimer w ∧
  heap (assign key v w) = heap w ∧
  raf_next (assign key v w) = raf_next w ∧
  raf_pending (assign key v w) = raf_pending w ∧
  trace (assign key v w) = trace w ∧
  memo_getLogStartTime (assign key v w) = memo_getLogStartTime w ∧
  memo_getLogEndTime (assign key v w) = memo_getLogEndTime w ∧
  memo_getStreams (assign key v w) = memo_getStreams w ∧
  memo_getCurrentFrame (assign key v w) = memo_getCurrentFrame w.
Proof.
  unfold assign. destruct (state w !! key); [done|].
  destruct (_ && _); [|done]. by destruct (is_prototype v).
Qed.

(** Under every name but [__proto__] an assignment stores a property of the
    attribute object itself. *)
Lemma assign_data key v w :
  key ≠ "__proto__" →
  assign key v w = with_state (<[key := v]> (state w)) w.
Proof.
  intros Hk. unfold assign. destruct (state w !! key); [done|].
  apply String.eqb_neq in Hk. by rewrite Hk.
Qed.

Lemma get_assign key v w : key ≠ "__proto__" → get key (assign key v w) = v.
Proof.
  intros Hk. rewrite assign_data by done. unfold get. simpl.
  by rewrite lookup_insert_eq.
Qed.

Lemma get_assign_ne key key' v w :
  key ≠ "__proto__" → key ≠ key' → get key' (assign key v w) = get key' w.
Proof.
  intros Hk Hne. rewrite assign_data by done. unfold get. simpl.
  by rewrite lookup_insert_ne.
Qed.

Lemma set_effective key v w :
  effective key v w = true →
  set key v w =
    let w1 := with_version (S (_version w)) (assign key v w) in
    match _updateTimer w with
    | None => with_updateTimer (Some (raf_next w))
                (with_raf (Pos.succ (raf_next w))
                          (raf_pending w ++ [raf_next w]) w1)
    | Some _ => w1
    end.
Proof.
  unfold effective, set. intros ->.
  destruct (assign_fields key v w)
    as (_ & _ & _ & Hv & Ht & _ & Hn & Hp & _).
  cbv zeta. unfold requestAnimationFrame. simpl. rewrite Hv, Ht, Hn, Hp.
  by destruct (_updateTimer w).
Qed.

Lemma set_ineffective key v w : effective key v w = false → set key v w = w.
Proof. unfold effective. intros H%negb_false_iff. by apply set_same. Qed.

Lemma set_fields key v w :
  callbacks (set key v w) = callbacks w ∧
  listeners (set key v w) = listeners w ∧
  trace (set key v w) = trace w.
Proof.
  destruct (assign_fields key v w) as (Hc & _ & Hl & _ & _ & _ & _ & _ & Htr & _).
  destruct (effective key v w) eqn:He.
  - rewrite set_effective by done. by destruct (_updateTimer w).
  - by rewrite set_ineffective.
Qed.

Lemma set_memos key v w :
  memo_getLogStartTime (set key v w) = memo_getLogStartTime w ∧
  memo_getLogEndTime (set key v w) = memo_getLogEndTime w ∧
  memo_getStreams (set key v w) = memo_getStreams w.
Proof.
  destruct (assign_fields key v w)
    as (_ & _ & _ & _ & _ & _ & _ & _ & _ & H1 & H2 & H3 & _).
  destruct (effective key v w) eqn:He.
  - rewrite set_effective by done. by destruct (_updateTimer w).
  - by rewrite set_ineffective.
Qed.

Lemma set_heap key v w : heap (set key v w) = heap w.
Proof.
  destruct (assign_fields key v w) as (_ & _ & _ & _ & _ & Hh & _).
  destruct (effective key v w) eqn:He.
  - rewrite set_effective by done. by destruct (_updateTimer w).
  - by rewrite set_ineffective.
Qed.

Lemma set_write_step key v w : write_step w (set key v w).
Proof.
  destruct (assign_fields key v w)
    as (_ & _ & Hl & Hv & Hu & _ & Hn & Hp & Htr & _).
  destruct (effective key v w) eqn:He.
  - rewrite set_effective by done. unfold write_step, armed.
    destruct (_updateTimer w) eqn:Ht; simpl; rewrite ?Ht, ?Hl, ?Htr, ?Hp, ?Hn;
      (split; [done|]; split; [done|]; right; split; [lia|done]).
  - rewrite set_ineffective by done. unfold write_step. auto 10.
Qed.

Lemma set_version key v w :
  _version (set key v w) =
  (if effective key v w then 1 else 0) + _version w.
Proof.
  destruct (effective key v w) eqn:He.
  - rewrite set_effective by done. by destruct (_updateTimer w).
  - by rewrite set_ineffective.
Qed.

Lemma set_get key v w :
  key ≠ "__proto__" →
  strict_equals v v = true → strict_equals (get key (set key v w)) v = true.
Proof.
  intros Hk Hv. destruct (effective key v w) eqn:He.
  - rewrite set_effective by done.
    replace (get key _) with (get key (assign key v w))
      by (by destruct (_updateTimer w)).
    by rewrite get_assign.
  - rewrite set_ineffective by done.
    unfold effective in He. by apply negb_false_iff in He.
Qed.

Lemma get_set_effective key v w :
  key ≠ "__proto__" → effective key v w = true → get key (set key v w) = v.
Proof.
  intros Hk He. rewrite set_effective by done.
  replace (get key _) with (get key (assign key v w))
    by (by destruct (_updateTimer w)).
  by rewrite get_assign.
Qed.

Lemma set_get_ne key key' v w :
  key ≠ "__proto__" → key ≠ key' → get key' (set key v w) = get key' w.
Proof.
  intros Hk Hne. destruct (effective key v w) eqn:He.
  - rewrite set_effective by done. rewrite <- (get_assign_ne key key' v w) by done.
    by destruct (_updateTimer w).
  - by rewrite set_ineffective.
Qed.

(** ** Selectors *)

Section SelectorFacts.
Context (env : Env).

Lemma getLogStartTime_run w :
  getLogStartTime env w =
    let md := get "metadata" w in
    let fresh_result :=
      Normal (logStartTime env (heap w) md)
        (write_memo CLogStartTime
           (Some ([md], logStartTime env (heap w) md)) w) in
    match memo_getLogStartTime w with
    | Some (prev, out) =>
        if same_inputs prev [md] then Normal out w else fresh_result
    | None => fresh_result
    end.
Proof.
  unfold getLogStartTime, createSelector. munfold. simpl.
  destruct (memo_getLogStartTime w) as [[prev out]|]; [|done].
  by destruct (same_inputs prev _).
Qed.

Lemma getLogEndTime_run w :
  getLogEndTime w =
    let md := get "metadata" w in
    let fresh_result :=
      Normal (logEndTime (heap w) md)
        (write_memo CLogEndTime (Some ([md], logEndTime (heap w) md)) w) in
    match memo_getLogEndTime w with
    | Some (prev, out) =>
        if same_inputs prev [md] then Normal out w else fresh_result
    | None => fresh_result
    end.
Proof.
  unfold getLogEndTime, createSelector. munfold. simpl.
  destruct (memo_getLogEndTime w) as [[prev out]|]; [|done].
  by destruct (same_inputs prev _).
Qed.

(** Reading a log bound changes nothing but the selector's own memo cell. *)
Lemma getLogStartTime_frame w :
  ∃ w', getLogStartTime env w = Normal (returned (getLogStartTime env) w) w' ∧
        core w' = core w ∧ heap w' = heap w ∧
        memo_getLogEndTime w' = memo_getLogEndTime w.
Proof.
  unfold returned. rewrite getLogStartTime_run. simpl.
  destruct (memo_getLogStartTime w) as [[prev out]|];
    [destruct (same_inputs prev _)|]; eauto.
Qed.

Lemma getLogEndTime_frame w :
  ∃ w', getLogEndTime w = Normal (returned getLogEndTime w) w' ∧
        core w' = core w ∧ heap w' = heap w.
Proof.
  unfold returned. rewrite getLogEndTime_run. simpl.
  destruct (memo_getLogEndTime w) as [[prev out]|];
    [destruct (same_inputs prev _)|]; eauto.
Qed.

Lemma core_state w w' : core w' = core w → state w' = state w.
Proof. unfold core. by intros [= ]. Qed.

Lemma core_get w w' key : core w' = core w → get key w' = get key w.
Proof.
  intros H. unfold get. rewrite (core_state _ _ H).
  unfold core in H. by injection H as _ _ _ _ -> _.
Qed.

Lemma returned_getLogEndTime w w' :
  core w' = core w → heap w' = heap w →
  memo_getLogEndTime w' = memo_getLogEndTime w →
  returned getLogEndTime w' = returned getLogEndTime w.
Proof.
  intros Hc Hh Hm. unfold returned. rewrite !getLogEndTime_run. simpl.
  rewrite Hm, Hh, (core_get _ _ "metadata" Hc).
  destruct (memo_getLogEndTime w) as [[prev out]|];
    [destruct (same_inputs prev _)|]; done.
Qed.

(** [seek] is a single write of [seek_target] to the timestamp attribute. *)
Lemma seek_run timestamp w :
  ∃ w1, seek env timestamp w =
          Normal tt (set "timestamp" (seek_target env w timestamp) w1) ∧
        core w1 = core w ∧ heap w1 = heap w.
Proof.
  unfold seek, seek_target, getMetadata. munfold.
  destruct (truthy (get "metadata" w)); [|by eauto].
  destruct (getLogStartTime_frame w) as (w1 & -> & Hc1 & Hh1 & Hm1).
  destruct (getLogEndTime_frame w1) as (w2 & -> & Hc2 & Hh2).
  rewrite (returned_getLogEndTime w w1) by done.
  exists w2. split; [|split; congruence].
  by destruct (_ && _).
Qed.

End SelectorFacts.

(** ** Seeking *)

(** C2, amended.  For every finite [t], [seek(t)] returns normally and the
    stored timestamp equals ([===]) the value it passed on: [t] itself when
    metadata is absent, and, when metadata is present and the log bounds are
    finite numbers [s <= e], [s] if [t < s], [e] if [t > e] and [t]
    otherwise. *)
Theorem seek_clamps_into_ordered_bounds (env : Env) (w : World) (t : number) :
  Num.finite t = true →
  ∃ w', seek env (VNum t) w = Normal tt w' ∧
    (truthy (get "metadata" w) = false →
     strict_equals (get "timestamp" w') (VNum t) = true) ∧
    (∀ s e,
       truthy (get "metadata" w) = true →
       returned (getLogStartTime env) w = VNum s →
       returned getLogEndTime w = VNum e →
       Num.finite s = true → Num.finite e = true → Num.le s e →
       strict_equals (get "timestamp" w')
         (VNum (if Num.ltb t s then s else if Num.ltb e t then e else t))
       = true) ∧
    strict_equals (get "timestamp" w') (seek_target env w (VNum t)) = true.
Proof.
  intros Ht. destruct (seek_run env (VNum t) w) as (w1 & Hrun & Hc & Hh).
  eexists. split; [exact Hrun|].
  assert (Hself : strict_equals (seek_target env w (VNum t))
                    (seek_target env w (VNum t)) = true).
  { apply strict_equals_refl. unfold seek_target.
    destruct (truthy _); [|intros ? [= <-]; by apply NumFacts.finite_not_nan].
    destruct (returned (getLogStartTime env) w) as [| | |s| | |] eqn:Hs;
      simpl; try (intros ? [= <-]; by apply NumFacts.finite_not_nan).
    destruct (returned getLogEndTime w) as [| | |e| | |] eqn:He; simpl;
      rewrite ?andb_false_r;
      try (intros ? [= <-]; by apply NumFacts.finite_not_nan).
    destruct (Num.finite s) eqn:Fs, (Num.finite e) eqn:Fe; simpl;
      try (intros ? [= <-]; by apply NumFacts.finite_not_nan).
    unfold clamp. simpl. intros ? [= <-].
    apply NumFacts.finite_not_nan, NumFacts.max_finite; [done|].
    by apply NumFacts.min_finite. }
  pose proof (set_get "timestamp" _ w1 ltac:(done) Hself) as Hstored.
  split; [|split; [|done]].
  - intros Hmd. eapply strict_equals_trans; [exact Hstored|].
    unfold seek_target. rewrite Hmd. apply strict_equals_refl.
    intros ? [= <-]. by apply NumFacts.finite_not_nan.
  - intros s e Hmd Hs He Fs Fe Hse.
    eapply strict_equals_trans; [exact Hstored|].
    unfold seek_target. rewrite Hmd, Hs, He. simpl. rewrite Fs, Fe. simpl.
    by apply NumFacts.clamp_cases.
Qed.

Lemma seek_clamps_witness :
  let env := example_env no_code in
  let w := loaded env 100 200 in
  Num.finite (Num.of_Z 50) = true ∧
  ∃ w', seek env (num 50) w = Normal tt w' ∧
        strict_equals (get "timestamp" w') (num 105) = true.
Proof.
  intros env w.
  assert (Ht : Num.finite (Num.of_Z 50) = true) by reflexivity.
  assert (Hmd : truthy (get "metadata" w) = true) by (vm_compute; reflexivity).
  assert (Hs : returned (getLogStartTime env) w = VNum (Num.of_Z 105))
    by (vm_compute; reflexivity).
  assert (He : returned getLogEndTime w = VNum (Num.of_Z 200))
    by (vm_compute; reflexivity).
  assert (Fs : Num.finite (Num.of_Z 105) = true) by (vm_compute; reflexivity).
  assert (Fe : Num.finite (Num.of_Z 200) = true) by (vm_compute; reflexivity).
  assert (Hse : Num.le (Num.of_Z 105) (Num.of_Z 200))
    by (vm_compute; reflexivity).
  split; [exact Ht|].
  destruct (seek_clamps_into_ordered_bounds env w (Num.of_Z 50) Ht)
    as (w' & Hrun & _ & Hbounds & _).
  exists w'. split; [exact Hrun|].
  specialize (Hbounds _ _ Hmd Hs He Fs Fe Hse).
  replace (if Num.ltb (Num.of_Z 50) (Num.of_Z 105) then Num.of_Z 105
           else if Num.ltb (Num.of_Z 200) (Num.of_Z 50) then Num.of_Z 200
                else Num.of_Z 50)
    with (Num.of_Z 105) in Hbounds by (vm_compute; reflexivity).
  exact Hbounds.
Defined.

(** C2 as stated fails when the shifted start lies beyond the end: with
    metadata [{start_time: 100, end_time: 102}] and a time window of 5 the
    bounds are [s = 105] and [e = 102]; [seek(103)] has [t < s] and [t > e]
    and stores 105, which is not [e]. *)
Lemma seek_beyond_end_of_short_log :
  ¬ seek_claim (example_env no_code)
      (loaded (example_env no_code) 100 102) (Num.of_Z 103).
Proof.
  set (env := example_env no_code). set (w := loaded env 100 102).
  intros H.
  assert (Hmd : truthy (get "metadata" w) = true) by (vm_compute; reflexivity).
  assert (Hs : returned (getLogStartTime env) w = VNum (Num.of_Z 105))
    by (vm_compute; reflexivity).
  assert (He : returned getLogEndTime w = VNum (Num.of_Z 102))
    by (vm_compute; reflexivity).
  assert (Fs : Num.finite (Num.of_Z 105) = true) by (vm_compute; reflexivity).
  assert (Fe : Num.finite (Num.of_Z 102) = true) by (vm_compute; reflexivity).
  assert (Hrun : seek env (VNum (Num.of_Z 103)) w
                 = Normal tt (final (seek env (VNum (Num.of_Z 103)) w)))
    by (vm_compute; reflexivity).
  destruct (H _ _ _ Hmd Hs He Fs Fe Hrun) as (_ & Hend & _).
  assert (Hlt : Num.ltb (Num.of_Z 102) (Num.of_Z 103) = true)
    by (vm_compute; reflexivity).
  specialize (Hend Hlt). vm_compute in Hend. discriminate.
Qed.

(** ** Connection API *)

(** C6, amended.  On the base loader [connect] and [close] (and
    [getBufferRange]) throw the "not implemented" error to the caller and
    change nothing; [isOpen] does not throw: it returns [false] and changes
    nothing. *)
Theorem connection_operations_on_base (w : World) :
  signals_not_implemented connect w ∧
  signals_not_implemented close w ∧
  signals_not_implemented getBufferRange w ∧
  isOpen w = Normal (VBool false) w.
Proof. by repeat split. Qed.

(** C6 as stated fails for [isOpen], which returns normally. *)
Lemma isOpen_does_not_throw : ¬ signals_not_implemented isOpen constructor.
Proof. unfold signals_not_implemented, isOpen. munfold. discriminate. Qed.

(** ** Stream settings *)

Lemma fresh_unallocated (h : gmap loc obj) : h !! fresh (dom h) = None.
Proof. apply not_elem_of_dom, is_fresh. Qed.

Lemma updateStreamSettings_run settings w :
  updateStreamSettings settings w =
    let h := heap w in
    let r := fresh (dom h) in
    let merged := own_props h settings ∪ own_props h (get "streamSettings" w) in
    Normal tt (set "streamSettings" (VRef r)
                 (with_heap (<[r := OPlain merged]> h) w)).
Proof. done. Qed.

Lemma get_set_ref key r w :
  key ≠ "__proto__" → get key (set key (VRef r) w) = VRef r.
Proof.
  intros Hk. destruct (effective key (VRef r) w) eqn:He.
  - by apply get_set_effective.
  - rewrite set_ineffective by done.
    unfold effective in He. apply negb_false_iff in He.
    destruct (get key w); simpl in He; try done.
    by apply Pos.eqb_eq in He as ->.
Qed.

(** C8.  [updateStreamSettings(settings)] stores an object that holds every
    property of [settings] with its new value and every other property of the
    previous stream settings with its old value; [{a: 1}] followed by
    [{b: 2}] on a new loader yields [{a: 1, b: 2}]. *)
Theorem updateStreamSettings_shallow_merges :
  (∀ settings w, ∃ w' r merged,
     updateStreamSettings settings w = Normal tt w' ∧
     get "streamSettings" w' = VRef r ∧
     heap w' !! r = Some (OPlain merged) ∧
     ∀ k, merged !! k =
          match own_props (heap w) settings !! k with
          | Some v => Some v
          | None => own_props (heap w) (get "streamSettings" w) !! k
          end) ∧
  own_props (heap settings_a_then_b) (get "streamSettings" settings_a_then_b)
  = {[ "a" := num 1; "b" := num 2 ]}.
Proof.
  split; [|by vm_compute].
  intros settings w. rewrite updateStreamSettings_run. simpl.
  eexists _, _, _. split; [done|]. split; [by apply get_set_ref|].
  split.
  - rewrite set_heap. simpl. apply lookup_insert_eq.
  - intros k. rewrite lookup_union.
    destruct (own_props (heap w) settings !! k);
      by destruct (own_props (heap w) (get "streamSettings" w) !! k).
Qed.

(** C9.  Every call to [updateStreamSettings] stores a reference to an object
    that did not exist before, so the generation grows by exactly one and a
    tick is armed unless one is pending, whatever [settings] holds. *)
Theorem updateStreamSettings_always_writes settings w :
  allocated (heap w) (get "streamSettings" w) →
  ∃ w' r,
    updateStreamSettings settings w = Normal tt w' ∧
    heap w !! r = None ∧
    get "streamSettings" w' = VRef r ∧
    is_Some (heap w' !! r) ∧
    _version w' = S (_version w) ∧
    armed w w'.
Proof.
  intros Halloc. rewrite updateStreamSettings_run. simpl.
  set (r := fresh (dom (heap w))). set (w1 := with_heap _ w).
  assert (He : effective "streamSettings" (VRef r) w1 = true).
  { unfold effective. apply negb_true_iff.
    change (get "streamSettings" w1) with (get "streamSettings" w).
    destruct (get "streamSettings" w) as [| | | | |r0|]; simpl; try done.
    apply Pos.eqb_neq. intros ->. destruct Halloc as [o Ho].
    unfold r in Ho. by rewrite fresh_unallocated in Ho. }
  exists (set "streamSettings" (VRef r) w1), r.
  split; [done|]. split; [apply fresh_unallocated|].
  split; [by apply get_set_ref|]. split.
  { rewrite set_heap. simpl. rewrite lookup_insert_eq. by eexists. }
  rewrite set_effective by done. rewrite assign_data by done.
  unfold armed. simpl.
  destruct (_updateTimer w) eqn:Ht; simpl; rewrite ?Ht; by repeat split.
Qed.

Lemma updateStreamSettings_restated_witness :
  let settings := settings_a.1 in
  let w := settings_a.2 in
  allocated (heap w) (get "streamSettings" w) ∧
  own_props (heap w) settings = own_props (heap w) (get "streamSettings" w) ∧
  ∃ w', updateStreamSettings settings w = Normal tt w' ∧
        _version w' = S (_version w).
Proof.
  intros settings w.
  assert (Halloc : allocated (heap w) (get "streamSettings" w)).
  { vm_compute. by eexists. }
  split; [exact Halloc|]. split; [by vm_compute|].
  destruct (updateStreamSettings_always_writes settings w Halloc)
    as (w' & r & Hrun & _ & _ & _ & Hv & _).
  exists w'. by split.
Defined.

(** ** Log bounds *)

Lemma strict_equals_same_truth a b :
  strict_equals a b = true → truthy a = truthy b.
Proof.
  destruct a, b; simpl; try done.
  - by destruct b, b0.
  - unfold Num.eqb, SFeqb.
    by destruct x as [[]|[]| |[] ? ?], x0 as [[]|[]| |[] ? ?].
  - by intros ->%String.eqb_eq.
Qed.

Lemma same_inputs_1 prev a :
  same_inputs prev [a] = true → ∃ p, prev = [p] ∧ strict_equals p a = true.
Proof.
  destruct prev as [|p [|]]; simpl; try done.
  - rewrite andb_true_r. eauto.
  - by rewrite andb_false_r.
Qed.

Lemma same_inputs_2 prev a b :
  same_inputs prev [a; b] = true →
  ∃ p q, prev = [p; q] ∧ strict_equals p a = true ∧ strict_equals q b = true.
Proof.
  destruct prev as [|p [|q [|]]]; simpl; try done.
  - by rewrite andb_false_r.
  - rewrite andb_true_r. intros [? ?]%andb_true_iff. eauto.
  - by rewrite !andb_false_r.
Qed.

(** Where the start time is truthy, the start of the log is the start time
    plus the time window, also when the selector answers from its memo. *)
Lemma getLogStartTime_shifts env w s :
  start_memo_coherent env w →
  truthy (get "metadata" w) = true →
  get_prop (heap w) (get "metadata" w) "start_time" = VNum s →
  truthy (VNum s) = true →
  returned (getLogStartTime env) w = VNum (Num.add s (TIME_WINDOW env)).
Proof.
  intros Hcoh Hmd Hs Hts.
  assert (Hfresh : logStartTime env (heap w) (get "metadata" w)
                   = VNum (Num.add s (TIME_WINDOW env))).
  { unfold logStartTime. by rewrite Hmd, Hs, Hts. }
  unfold returned. rewrite getLogStartTime_run. simpl.
  destruct (memo_getLogStartTime w) as [[prev out]|] eqn:Hmemo; [|done].
  destruct (same_inputs prev _) eqn:Hsame; [|done].
  destruct (Hcoh _ _ Hmemo) as (md & -> & _ & ->).
  apply same_inputs_1 in Hsame as (p & [= <-] & Heq).
  rewrite strict_equals_sym in Heq.
  apply strict_equals_truthy in Heq; [|done]. by rewrite <- Heq.
Qed.

Lemma getLogEndTime_unshifted w :
  end_memo_coherent w →
  truthy (get "metadata" w) = true →
  returned getLogEndTime w = get_prop (heap w) (get "metadata" w) "end_time".
Proof.
  intros Hcoh Hmd.
  assert (Hfresh : logEndTime (heap w) (get "metadata" w)
                   = get_prop (heap w) (get "metadata" w) "end_time").
  { unfold logEndTime. by rewrite Hmd. }
  unfold returned. rewrite getLogEndTime_run. simpl.
  destruct (memo_getLogEndTime w) as [[prev out]|] eqn:Hmemo; [|done].
  destruct (same_inputs prev _) eqn:Hsame; [|done].
  destruct (Hcoh _ _ Hmemo) as (md & -> & _ & ->).
  apply same_inputs_1 in Hsame as (p & [= <-] & Heq).
  rewrite strict_equals_sym in Heq.
  apply strict_equals_truthy in Heq; [|done]. by rewrite <- Heq.
Qed.

(** The example of the specification: start 100, end 200, window 5. *)
Lemma log_bounds_example :
  let env := example_env no_code in
  returned (getLogStartTime env) (loaded env 100 200) = num 105 ∧
  returned getLogEndTime (loaded env 100 200) = num 200.
Proof. by vm_compute. Qed.

(** C4 on a log that starts at time 0: the start time is falsy, so the
    selector returns it as it is, 0, and not 0 + 5; the end is unshifted. *)
Theorem getLogStartTime_of_zero_start_time :
  let env := example_env no_code in
  let w := loaded env 0 200 in
  get_prop (heap w) (get "metadata" w) "start_time" = num 0 ∧
  Number_isFinite (num 0) = true ∧
  js_add env (num 0) (VNum (TIME_WINDOW env)) = num 5 ∧
  returned (getLogStartTime env) w = num 0 ∧
  returned getLogEndTime w = num 200.
Proof. by vm_compute. Qed.

(** ** Visible streams *)

Lemma getStreams_run w :
  getStreams w =
    let ss := get "streamSettings" w in
    let st := get "streams" w in
    let r := fresh (dom (heap w)) in
    let fresh_result :=
      if negb (truthy ss) || negb (truthy st)
      then Normal st (write_memo CStreams (Some ([ss; st], st)) w)
      else Normal (VRef r)
             (write_memo CStreams (Some ([ss; st], VRef r))
                (with_heap (<[r := filtered (heap w) ss st]> (heap w)) w)) in
    match memo_getStreams w with
    | Some (prev, out) =>
        if same_inputs prev [ss; st] then Normal out w else fresh_result
    | None => fresh_result
    end.
Proof.
  unfold getStreams, createSelector. munfold. simpl.
  destruct (memo_getStreams w) as [[prev out]|];
    [destruct (same_inputs prev _); [done|]|];
    by destruct (negb _ || negb _).
Qed.

Lemma visible_lookup h ss st k :
  visible h ss st !! k =
  if truthy (get_prop h ss k) then enumerable_props h st !! k else None.
Proof.
  unfold visible.
  destruct (filter _ _ !! k) as [x|] eqn:Hf.
  - apply map_lookup_filter_Some in Hf as [Hk Ht]. simpl in Ht.
    by rewrite Ht.
  - apply map_lookup_filter_None in Hf as [Hk|Hk].
    + rewrite Hk. by destruct (truthy _).
    + destruct (enumerable_props h st !! k) as [x|] eqn:Hx;
        [|by destruct (truthy _)].
      specialize (Hk x eq_refl). simpl in Hk. by destruct (truthy _).
Qed.

(** Apart from [__proto__], the new object holds the visible streams. *)
Lemma filtered_lookup h ss st r k :
  k ≠ "__proto__" →
  own_props (<[r := filtered h ss st]> h) (VRef r) !! k = visible h ss st !! k.
Proof.
  intros Hk. simpl. rewrite lookup_insert_eq. unfold filtered.
  destruct (visible h ss st !! "__proto__") as [v|]; [|done].
  destruct (is_prototype v); by rewrite lookup_delete_ne.
Qed.

Lemma stored_filtered_lookup h ss st r k :
  h !! r = Some (filtered h ss st) → k ≠ "__proto__" →
  own_props h (VRef r) !! k = visible h ss st !! k.
Proof.
  intros Hr Hk. simpl. rewrite Hr. unfold filtered.
  destruct (visible h ss st !! "__proto__") as [v|]; [|done].
  destruct (is_prototype v); by rewrite lookup_delete_ne.
Qed.

Lemma own_props_alloc h o v :
  allocated h v → own_props (<[fresh (dom h) := o]> h) v = own_props h v.
Proof.
  destruct v as [| | | | |r|]; simpl; try done. intros [o' Ho'].
  rewrite lookup_insert_ne; [done|]. intros <-.
  by rewrite fresh_unallocated in Ho'.
Qed.

Lemma enumerable_props_alloc h o v :
  allocated h v →
  enumerable_props (<[fresh (dom h) := o]> h) v = enumerable_props h v.
Proof.
  intros Hv. unfold enumerable_props. rewrite own_props_alloc by done.
  destruct v as [| | | | |r|]; try done. destruct Hv as [o' Ho'].
  rewrite lookup_insert_ne; [done|]. intros <-.
  by rewrite fresh_unallocated in Ho'.
Qed.

(** What a stream setting read on an ordinary object with the original
    prototype says: its own value, or else what every object inherits. *)
Lemma get_prop_plain h r props k :
  h !! r = Some (OPlain props) →
  get_prop h (VRef r) k =
  match props !! k with
  | Some x => x
  | None => Object_prototype_get (VBuiltin Object_prototype) k
  end.
Proof. intros Hr. unfold get_prop, inherited. simpl. by rewrite Hr. Qed.

Lemma truthy_inherited k :
  truthy (Object_prototype_get (VBuiltin Object_prototype) k)
  = inherited_name k.
Proof.
  unfold inherited_name, Object_prototype_get.
  destruct (String.eqb k "__proto__"); [done|].
  by destruct (Object_prototype_methods !! k).
Qed.

Lemma keeps_ordinary h (ss : value) (lookup : string → option value)
    (entries : gmap string value) :
  (∀ k, k ≠ "__proto__" →
     lookup k = if truthy (get_prop h ss k) then entries !! k else None) →
  ∀ rs settings,
    ss = VRef rs → h !! rs = Some (OPlain settings) →
    ∀ k, k ≠ "__proto__" →
      lookup k =
      match settings !! k with
      | Some setting => if truthy setting then entries !! k else None
      | None => if inherited_name k then entries !! k else None
      end.
Proof.
  intros Hall rs settings -> Hrs k Hk. rewrite Hall by done.
  rewrite (get_prop_plain h rs settings k Hrs).
  destruct (settings !! k); [done|]. by rewrite truthy_inherited.
Qed.

(** C10, amended.  When the stream settings and the streams are both present
    (truthy), [getStreams()] returns an object that holds, under every name
    but [__proto__], exactly the entries of [streams] for which
    [streamSettings[name]] is truthy, each with the value it has in
    [streams].  For settings that are an ordinary object this means: a
    stream whose own setting is falsy is excluded, a stream whose own setting
    is truthy is kept, and a stream without a setting of its own is excluded
    unless its name is one every object inherits ([toString], [constructor],
    ...), in which case it is kept.  Otherwise [getStreams()] returns
    [streams] itself (up to the sign of a zero).  The [streams] attribute and
    its object are left as they were. *)
Theorem getStreams_keeps_enabled_streams (w : World) :
  streams_memo_coherent w →
  allocated (heap w) (get "streams" w) →
  ∃ v w',
    getStreams w = Normal v w' ∧
    get "streams" w' = get "streams" w ∧
    enumerable_props (heap w') (get "streams" w)
    = enumerable_props (heap w) (get "streams" w) ∧
    keeps w v w'.
Proof.
  intros Hcoh Halloc. rewrite getStreams_run. unfold keeps.
  set (ss := get "streamSettings" w). set (st := get "streams" w).
  cbv zeta.
  destruct (memo_getStreams w) as [[prev out]|] eqn:Hmemo.
  2:{ destruct (truthy ss) eqn:Tss, (truthy st) eqn:Tst; simpl;
        try (eexists _, _; repeat split; by auto).
      eexists _, _. split; [done|]. split; [done|].
      split; [by apply enumerable_props_alloc|].
      assert (Hall : ∀ k, k ≠ "__proto__" →
        own_props (<[fresh (dom (heap w)) := filtered (heap w) ss st]> (heap w))
          (VRef (fresh (dom (heap w)))) !! k =
        if truthy (get_prop (heap w) ss k)
        then enumerable_props (heap w) st !! k else None).
      { intros k Hk. rewrite filtered_lookup by done. apply visible_lookup. }
      eexists. split; [done|].
      split; [simpl; rewrite lookup_insert_eq; by eexists|].
      split; [by intros _ _|].
      intros rs settings Hrs Hsettings _.
      by apply (keeps_ordinary (heap w) ss _ _ Hall rs settings). }
  destruct (same_inputs prev _) eqn:Hsame.
  2:{ destruct (truthy ss) eqn:Tss, (truthy st) eqn:Tst; simpl;
        try (eexists _, _; repeat split; by auto).
      eexists _, _. split; [done|]. split; [done|].
      split; [by apply enumerable_props_alloc|].
      assert (Hall : ∀ k, k ≠ "__proto__" →
        own_props (<[fresh (dom (heap w)) := filtered (heap w) ss st]> (heap w))
          (VRef (fresh (dom (heap w)))) !! k =
        if truthy (get_prop (heap w) ss k)
        then enumerable_props (heap w) st !! k else None).
      { intros k Hk. rewrite filtered_lookup by done. apply visible_lookup. }
      eexists. split; [done|].
      split; [simpl; rewrite lookup_insert_eq; by eexists|].
      split; [by intros _ _|].
      intros rs settings Hrs Hsettings _.
      by apply (keeps_ordinary (heap w) ss _ _ Hall rs settings). }
  destruct (Hcoh _ _ Hmemo) as (ss' & st' & -> & _ & _ & Hres).
  apply same_inputs_2 in Hsame as (p & q & [= <- <-] & Hss & Hst).
  exists out, w. split; [done|]. split; [done|]. split; [done|].
  unfold streams_result in Hres.
  rewrite (strict_equals_same_truth _ _ Hss),
          (strict_equals_same_truth _ _ Hst) in Hres.
  destruct (truthy ss) eqn:Tss, (truthy st) eqn:Tst; simpl in *;
    try (right; by subst).
  rewrite strict_equals_sym in Hss. rewrite strict_equals_sym in Hst.
  apply strict_equals_truthy in Hss; [|done].
  apply strict_equals_truthy in Hst; [|done]. subst ss' st'.
  destruct Hres as (r & -> & Hr).
  assert (Hall : ∀ k, k ≠ "__proto__" →
    own_props (heap w) (VRef r) !! k =
    if truthy (get_prop (heap w) ss k)
    then enumerable_props (heap w) st !! k else None).
  { intros k Hk. rewrite (stored_filtered_lookup _ ss st) by done.
    apply visible_lookup. }
  exists r. split; [done|]. split; [by eexists|].
  split; [by intros _ _|].
  intros rs settings Hrs Hsettings _.
  by apply (keeps_ordinary (heap w) ss _ _ Hall rs settings).
Qed.

Lemma getStreams_witness :
  let w := three_streams in
  streams_memo_coherent w ∧ allocated (heap w) (get "streams" w) ∧
  ∃ r w',
    getStreams w = Normal (VRef r) w' ∧
    own_props (heap w') (VRef r) !! "/a" = Some (VRef 1%positive) ∧
    own_props (heap w') (VRef r) !! "/b" = None ∧
    own_props (heap w') (VRef r) !! "/c" = None.
Proof.
  intros w.
  assert (Hcoh : streams_memo_coherent w) by (intros ins out; discriminate).
  assert (Halloc : allocated (heap w) (get "streams" w)).
  { vm_compute. by eexists. }
  assert (Hss : get "streamSettings" w = VRef 3%positive)
    by (vm_compute; reflexivity).
  assert (Hsettings : heap w !! 3%positive
            = Some (OPlain {[ "/a" := VBool true; "/b" := VBool false ]}))
    by (vm_compute; reflexivity).
  split; [exact Hcoh|]. split; [exact Halloc|].
  destruct (getStreams_keeps_enabled_streams w Hcoh Halloc)
    as (v & w' & Hrun & _ & _ & Hres).
  assert (Hboth : truthy (get "streamSettings" w) && truthy (get "streams" w)
                   = true) by (vm_compute; reflexivity).
  unfold keeps in Hres. rewrite Hboth in Hres.
  destruct Hres as (r & -> & _ & _ & Hkept).
  assert (Hst : described (heap w) (get "streams" w) = true)
    by (vm_compute; reflexivity).
  specialize (Hkept _ _ Hss Hsettings Hst).
  exists r, w'. split; [exact Hrun|].
  rewrite !Hkept by done. by vm_compute.
Defined.

(** C10 as stated fails for a stream that has no setting and whose name is
    one every object inherits: with streams [{toString: 1, "/a": 2}] and
    settings [{"/a": false}] the settings object has no property [toString]
    of its own, [streamSettings["toString"]] is the inherited function, and
    the stream is kept. *)
Lemma inherited_name_keeps_unset_stream :
  ¬ excludes_unset_streams inherited_stream_name.
Proof.
  intros H.
  assert (Hrun : getStreams inherited_stream_name
                 = Normal (VRef 3%positive)
                     (final (getStreams inherited_stream_name)))
    by (vm_compute; reflexivity).
  assert (Hss : truthy (get "streamSettings" inherited_stream_name) = true)
    by (vm_compute; reflexivity).
  assert (Hst : truthy (get "streams" inherited_stream_name) = true)
    by (vm_compute; reflexivity).
  specialize (H Hss Hst _ _ "toString" Hrun).
  assert (Hunset : own_props (heap inherited_stream_name)
                     (get "streamSettings" inherited_stream_name)
                   !! "toString" = None) by (vm_compute; reflexivity).
  assert (Hkept : own_props (heap (final (getStreams inherited_stream_name)))
                    (VRef 3%positive) !! "toString" = Some (num 1))
    by (vm_compute; reflexivity).
  specialize (H Hunset). rewrite Hkept in H. discriminate H.
Qed.

(** ** The current frame *)

Lemma getStreams_frame w :
  ∃ w1, getStreams w = Normal (returned getStreams w) w1 ∧
        core w1 = core w ∧
        memo_getCurrentFrame w1 = memo_getCurrentFrame w ∧
        ∀ r o, heap w !! r = Some o → heap w1 !! r = Some o.
Proof.
  unfold returned. rewrite getStreams_run. simpl.
  assert (Hins : ∀ o (r : loc) o',
            heap w !! r = Some o' →
            <[fresh (dom (heap w)) := o]> (heap w) !! r = Some o').
  { intros o r o' Hr. rewrite lookup_insert_ne; [done|].
    intros <-. by rewrite fresh_unallocated in Hr. }
  destruct (memo_getStreams w) as [[prev out]|];
    [destruct (same_inputs prev _)|];
    try destruct (negb _ || negb _); eexists; repeat split; eauto;
    intros r o Hr; simpl; by apply Hins.
Qed.

Lemma sync_setTime_run r time lookAhead timestamp w :
  heap w !! r = Some (OSync time lookAhead) →
  sync_setTime (VRef r) timestamp w =
    Normal tt (log (EvSetTime r timestamp)
                 (with_heap (<[r := OSync timestamp lookAhead]> (heap w)) w)).
Proof. intros H. unfold sync_setTime, synchronizer. munfold. by rewrite H. Qed.

Lemma sync_setLookAheadTimeOffset_run r time lookAhead offset w :
  heap w !! r = Some (OSync time lookAhead) →
  sync_setLookAheadTimeOffset (VRef r) offset w =
    Normal tt (log (EvSetLookAheadTimeOffset r offset)
                 (with_heap (<[r := OSync time offset]> (heap w)) w)).
Proof.
  intros H. unfold sync_setLookAheadTimeOffset, synchronizer. munfold.
  by rewrite H.
Qed.

Lemma sync_getCurrentFrame_run env r time lookAhead streamSettings w :
  heap w !! r = Some (OSync time lookAhead) →
  sync_getCurrentFrame env (VRef r) streamSettings w =
    Normal (frame_at env r time lookAhead streamSettings)
           (log (EvGetCurrentFrame r streamSettings) w).
Proof.
  intros H. unfold sync_getCurrentFrame, synchronizer. munfold. by rewrite H.
Qed.

(** C5.  Whenever [getCurrentFrame()] runs its combinator: without a
    synchronizer or without a finite timestamp it returns [null] and calls
    nothing; otherwise it calls [setTime(timestamp)], then
    [setLookAheadTimeOffset(lookAhead)], then
    [getCurrentFrame(streamSettings)] on the synchronizer, and returns the
    frame assembled for the time and look-ahead just pushed. *)
Theorem getCurrentFrame_pushes_before_reading (env : Env) (w : World) :
  recomputes CCurrentFrame (frame_inputs w) w →
  let sync := get "logSynchronizer" w in
  let streamSettings := get "streamSettings" w in
  let timestamp := get "timestamp" w in
  let lookAhead := get "lookAhead" w in
  (truthy sync && Number_isFinite timestamp = false →
   ∃ w', getCurrentFrame env w = Normal VNull w' ∧ trace w' = trace w) ∧
  (∀ r time0 lookAhead0,
     sync = VRef r → heap w !! r = Some (OSync time0 lookAhead0) →
     Number_isFinite timestamp = true →
     ∃ w', getCurrentFrame env w =
             Normal (frame_at env r timestamp lookAhead streamSettings) w' ∧
           trace w' = trace w ++
             [EvSetTime r timestamp;
              EvSetLookAheadTimeOffset r lookAhead;
              EvGetCurrentFrame r streamSettings]).
Proof.
  intros Hmiss sync streamSettings timestamp lookAhead.
  destruct (getStreams_frame w) as (w1 & Hstreams & Hcore & Hmemo & Hheap).
  assert (Htrace : trace w1 = trace w) by (unfold core in Hcore; congruence).
  assert (Hrun : ∀ out w2,
    (if truthy sync && Number_isFinite timestamp
     then (sync_setTime sync timestamp;;
           sync_setLookAheadTimeOffset sync lookAhead;;
           sync_getCurrentFrame env sync streamSettings) w1
     else Normal VNull w1) = Normal out w2 →
    ∃ w', getCurrentFrame env w = Normal out w' ∧ trace w' = trace w2).
  { intros out w2 Hcomb.
    unfold getCurrentFrame, createSelector.
    unfold recomputes, frame_inputs in Hmiss. simpl in Hmiss.
    unfold getLogSynchronizer, getStreamSettings, getCurrentTime, getLookAhead.
    unfold eval_inputs. munfold. rewrite Hstreams. simpl. rewrite Hmemo.
    fold sync streamSettings timestamp lookAhead in Hmiss |- *.
    destruct (memo_getCurrentFrame w) as [[prev out']|].
    - rewrite Hmiss.
      destruct (truthy sync && Number_isFinite timestamp);
        cbv beta; [rewrite Hcomb; eauto|injection Hcomb as <- <-; eauto].
    - destruct (truthy sync && Number_isFinite timestamp);
        cbv beta; [rewrite Hcomb; eauto|injection Hcomb as <- <-; eauto]. }
  split.
  - intros Hcond. rewrite Hcond in Hrun.
    destruct (Hrun VNull w1 eq_refl) as (w' & ? & ?). exists w'.
    split; congruence.
  - intros r time0 lookAhead0 Hsync Hr Hfin.
    rewrite Hsync, Hfin in Hrun. simpl in Hrun.
    apply Hheap in Hr.
    edestruct Hrun as (w' & Hw' & Htr).
    { munfold.
      rewrite (sync_setTime_run r time0 lookAhead0) by done.
      rewrite (sync_setLookAheadTimeOffset_run r timestamp lookAhead0)
        by (simpl; apply lookup_insert_eq).
      rewrite (sync_getCurrentFrame_run env r timestamp lookAhead)
        by (simpl; apply lookup_insert_eq).
      reflexivity. }
    exists w'. split; [exact Hw'|]. rewrite Htr. simpl. rewrite Htrace.
    by rewrite <- !app_assoc.
Qed.

Lemma getCurrentFrame_witness :
  let env := example_env no_code in
  recomputes CCurrentFrame (frame_inputs playing) playing ∧
  ∃ w', getCurrentFrame env playing = Normal (num 7) w' ∧
        trace w' = [EvSetTime 1%positive (num 7);
                    EvSetLookAheadTimeOffset 1%positive (num 2);
                    EvGetCurrentFrame 1%positive VUndefined].
Proof.
  intros env.
  assert (Hmiss : recomputes CCurrentFrame (frame_inputs playing) playing)
    by exact I.
  assert (Hsync : get "logSynchronizer" playing = VRef 1%positive)
    by (vm_compute; reflexivity).
  assert (Hheap : heap playing !! 1%positive
                  = Some (OSync VUndefined VUndefined))
    by (vm_compute; reflexivity).
  assert (Hfin : Number_isFinite (get "timestamp" playing) = true)
    by (vm_compute; reflexivity).
  split; [exact Hmiss|].
  destruct (getCurrentFrame_pushes_before_reading env playing Hmiss)
    as [_ Hpush].
  destruct (Hpush _ _ _ Hsync Hheap Hfin) as (w' & Hrun & Htr).
  exists w'. split; [exact Hrun|]. rewrite Htr. by vm_compute.
Defined.

(** ** Event bus *)

Section Callbacks.
Context (env : Env).

Lemma exec_leaves_callbacks c w :
  leaves_callbacks c = true →
  ∃ w', exec env c w = Normal tt w' ∧
        callbacks w' = callbacks w ∧ trace w' = trace w.
Proof.
  destruct c; simpl; try done; intros _.
  - eexists. split; [done|]. by destruct (set_fields key v w) as (? & ? & ?).
  - destruct (seek_run env timestamp w) as (w1 & -> & Hc & _).
    eexists. split; [done|].
    destruct (set_fields "timestamp" (seek_target env w timestamp) w1)
      as (-> & _ & ->).
    unfold core in Hc. split; congruence.
  - eexists. split; [done|].
    by destruct (set_fields "lookAhead" lookAhead w) as (? & ? & ?).
  - rewrite updateStreamSettings_run. simpl. eexists. split; [done|].
    by destruct (set_fields "streamSettings"
                   (VRef (fresh (dom (heap w))))
                   (with_heap
                      (<[fresh (dom (heap w)) :=
                           OPlain (own_props (heap w) settings ∪
                                   own_props (heap w)
                                     (get "streamSettings" w))]> (heap w)) w))
      as (-> & _ & ->).
  - by eexists.
  - by eexists.
  - destruct (getStreams_frame w) as (w1 & Hrun & Hc & _).
    munfold. rewrite Hrun. eexists. split; [done|].
    unfold core in Hc. split; congruence.
Qed.

Lemma run_leaves_callbacks body w :
  forallb leaves_callbacks body = true →
  ∃ w', run env body w = Normal tt w' ∧
        callbacks w' = callbacks w ∧ trace w' = trace w.
Proof.
  revert w. induction body as [|c body IH]; intros w; simpl.
  { by eexists. }
  intros [Hc Hbody]%andb_true_iff.
  destruct (exec_leaves_callbacks c w Hc) as (w1 & Hrun & Hcb & Htr).
  destruct (IH w1 Hbody) as (w2 & Hrun2 & Hcb2 & Htr2).
  exists w2. munfold. rewrite Hrun. split; [done|]. split; congruence.
Qed.

Lemma run_throws body e rest w :
  forallb leaves_callbacks body = true →
  ∃ w', run env (body ++ Throw e :: rest) w = Thrown (Raised e) w' ∧
        callbacks w' = callbacks w ∧ trace w' = trace w.
Proof.
  revert w. induction body as [|c body IH]; intros w; simpl.
  { by eexists. }
  intros [Hc Hbody]%andb_true_iff.
  destruct (exec_leaves_callbacks c w Hc) as (w1 & Hrun & Hcb & Htr).
  destruct (IH w1 Hbody) as (w2 & Hrun2 & Hcb2 & Htr2).
  exists w2. munfold. rewrite Hrun. split; [done|]. split; congruence.
Qed.

Lemma emit_loop_stops eventType eventArgs before :
  ∀ passed cb after body e rest fuel w,
    callbacks w !! eventType = Some (passed ++ before ++ cb :: after) →
    (∀ c, c ∈ before →
       forallb leaves_callbacks (code env c [VStr eventType; eventArgs])
       = true) →
    code env cb [VStr eventType; eventArgs] = body ++ Throw e :: rest →
    forallb leaves_callbacks body = true →
    length before < fuel →
    ∃ w', emit_loop env fuel eventType eventArgs (length passed) w
          = Some (Thrown (Raised e) w') ∧
          trace w' = trace w ++
            ((λ c, EvCallback c eventType eventArgs) <$> before ++ [cb]).
Proof.
  induction before as [|b before IH];
    intros passed cb after body e rest fuel w Hreg Hbefore Hcb Hbody Hfuel.
  - destruct fuel as [|fuel]; [simpl in Hfuel; lia|]. simpl.
    rewrite Hreg. simpl.
    rewrite (list_lookup_middle passed after cb (length passed) eq_refl).
    unfold call. rewrite Hcb.
    destruct (run_throws body e rest
                (log (EvCallback cb eventType eventArgs) w) Hbody)
      as (w' & -> & _ & Htr).
    exists w'. by split.
  - destruct fuel as [|fuel]; [simpl in Hfuel; lia|]. simpl.
    rewrite Hreg. simpl.
    rewrite (list_lookup_middle passed (before ++ cb :: after) b
               (length passed) eq_refl).
    unfold call.
    destruct (run_leaves_callbacks
                (code env b [VStr eventType; eventArgs])
                (log (EvCallback b eventType eventArgs) w))
      as (w1 & -> & Hcb1 & Htr1).
    { apply Hbefore. by left. }
    destruct (IH (passed ++ [b]) cb after body e rest fuel w1)
      as (w' & Hloop & Htr); try done.
    + rewrite Hcb1. simpl. rewrite Hreg. by rewrite <- app_assoc.
    + intros c Hc. apply Hbefore. by right.
    + simpl in Hfuel. lia.
    + rewrite length_app in Hloop. simpl in Hloop.
      rewrite Nat.add_1_r in Hloop.
      exists w'. split; [done|]. rewrite Htr, Htr1. simpl.
      by rewrite <- app_assoc.
Qed.

End Callbacks.

(** C7, amended.  A callback that throws ends the [emit] call: the callbacks
    registered before it have been invoked in registration order (as long as
    they neither throw nor change the callback registry), the exception reaches
    the caller of [emit], and neither the callbacks registered after it nor
    the statistics counter are reached. *)
Theorem emit_stops_at_throwing_callback (env : Env) (w : World)
    (eventType : string) (eventArgs : value) (before after : list fn)
    (cb : fn) (body rest : list cmd) (e : value) (fuel : nat) :
  callbacks w !! eventType = Some (before ++ cb :: after) →
  (∀ c, c ∈ before →
     forallb leaves_callbacks (code env c [VStr eventType; eventArgs])
     = true) →
  code env cb [VStr eventType; eventArgs] = body ++ Throw e :: rest →
  forallb leaves_callbacks body = true →
  length before < fuel →
  ∃ w', emit env fuel eventType eventArgs w = Some (Thrown (Raised e) w') ∧
        trace w' = trace w ++
          ((λ c, EvCallback c eventType eventArgs) <$> before ++ [cb]).
Proof.
  intros Hreg Hbefore Hcb Hbody Hfuel.
  destruct (emit_loop_stops env eventType eventArgs before [] cb after
              body e rest fuel w Hreg Hbefore Hcb Hbody Hfuel)
    as (w' & Hloop & Htr).
  exists w'. split; [|done]. unfold emit, callbacks_get. rewrite Hreg.
  simpl in Hloop. by rewrite Hloop.
Qed.

Lemma emit_stops_witness :
  ∃ w', emit (example_env thrower) 5 "update" VNull two_callbacks
        = Some (Thrown (Raised (VStr "boom")) w') ∧
        trace w' = [EvCallback 0 "update" VNull].
Proof.
  apply (emit_stops_at_throwing_callback (example_env thrower) two_callbacks
           "update" VNull [] [1] 0 [] [] (VStr "boom") 5).
  - reflexivity.
  - intros c Hc. by apply elem_of_nil in Hc.
  - reflexivity.
  - reflexivity.
  - simpl. lia.
Defined.

(** C7 as stated fails: when the first of two callbacks throws, the second
    one is not invoked, whatever the bound on the loop. *)
Lemma emit_skips_callbacks_after_a_throw :
  ¬ ∃ fuel, emit_reaches_all (example_env thrower) fuel "update" VNull
              two_callbacks.
Proof.
  intros [fuel H]. destruct (H 1) as (o & Hemit & Hin).
  { vm_compute. apply list_elem_of_In. simpl. auto. }
  destruct fuel as [|fuel]; [discriminate|].
  vm_compute in Hemit. injection Hemit as <-. simpl in Hin.
  apply list_elem_of_In in Hin. simpl in Hin.
  destruct Hin as [Hin|[]]. discriminate.
Qed.

(** ** Notification scheduler *)

Lemma write_step_refl w : write_step w w.
Proof. unfold write_step. auto 10. Qed.

Lemma write_step_trans w w1 w2 :
  write_step w w1 → write_step w1 w2 → write_step w w2.
Proof.
  unfold write_step, armed.
  intros (Hl1 & Ht1 & H1) (Hl2 & Ht2 & H2).
  split; [congruence|]. split; [congruence|].
  destruct H1 as [(Hv1 & Hu1 & Hp1 & Hn1)|[Hv1 Ha1]],
           H2 as [(Hv2 & Hu2 & Hp2 & Hn2)|[Hv2 Ha2]].
  - left. repeat split; congruence.
  - right. split; [lia|]. rewrite Hu1, Hp1, Hn1 in Ha2. done.
  - right. split; [lia|].
    destruct (_updateTimer w); destruct Ha1 as (? & ? & ?);
      repeat split; congruence.
  - right. split; [lia|].
    destruct (_updateTimer w); destruct Ha1 as (Hu & Hp & Hn);
      rewrite Hu in Ha2; destruct Ha2 as (? & ? & ?);
      repeat split; congruence.
Qed.

Lemma write_step_core w w1 w' :
  core w1 = core w → write_step w1 w' → write_step w w'.
Proof.
  unfold core, write_step, armed.
  intros [= Hc Hsh Hl Hs Hsp Hv Hu Hn Hp Ht].
  by rewrite Hl, Hv, Hu, Hn, Hp, Ht.
Qed.

Lemma set_sched_ok key v w : sched_ok w → sched_ok (set key v w).
Proof.
  intros Hok.
  destruct (assign_fields key v w) as (_ & _ & _ & _ & Hu & _ & Hn & Hp & _).
  destruct (effective key v w) eqn:He.
  - rewrite set_effective by done. unfold sched_ok in *.
    destruct (_updateTimer w) eqn:Ht; simpl; rewrite ?Hu, ?Hp, ?Hn, ?Ht;
      [done|].
    rewrite Hok. split; [done|]. lia.
  - by rewrite set_ineffective.
Qed.

Lemma burst_app ws1 ws2 w : burst (ws1 ++ ws2) w = burst ws2 (burst ws1 w).
Proof. unfold burst. apply foldl_app. Qed.

Lemma burst_cons key v ws w : burst ((key, v) :: ws) w = burst ws (set key v w).
Proof. done. Qed.

Lemma burst_sched_ok ws w : sched_ok w → sched_ok (burst ws w).
Proof.
  revert w. induction ws as [|[key v] ws IH]; intros w Hok; [done|].
  rewrite burst_cons. by apply IH, set_sched_ok.
Qed.

Lemma burst_write_step ws w : write_step w (burst ws w).
Proof.
  revert w. induction ws as [|[key v] ws IH]; intros w.
  - apply write_step_refl.
  - rewrite burst_cons. eapply write_step_trans; [apply set_write_step|apply IH].
Qed.

Lemma burst_version ws w :
  _version (burst ws w) = effective_writes ws w + _version w.
Proof.
  revert w. induction ws as [|[key v] ws IH]; intros w; [done|].
  rewrite burst_cons, IH, set_version. simpl. lia.
Qed.

(** An event type that is no inherited name resolves to what is
    registered. *)
Lemma callbacks_get_own eventType w :
  inherited_name eventType = false →
  callbacks_get eventType w =
  match callbacks w !! eventType with
  | Some cbs => Registered cbs
  | None => Unregistered
  end.
Proof.
  unfold callbacks_get, inherited_name.
  destruct (callbacks w !! eventType); [done|].
  by destruct (Object_prototype_get _ _).
Qed.

Section Flush.
Context (env : Env).

Lemma exec_leaves_listeners c w :
  leaves_listeners c = true →
  ∃ w', exec env c w = Normal tt w' ∧ write_step w w'.
Proof.
  destruct c; simpl; try done; intros Hc.
  - eexists. split; [done|]. apply set_write_step.
  - destruct (seek_run env timestamp w) as (w1 & -> & Hc1 & _).
    eexists. split; [done|].
    eapply write_step_core; [exact Hc1|apply set_write_step].
  - eexists. split; [done|]. apply set_write_step.
  - rewrite updateStreamSettings_run. simpl. eexists. split; [done|].
    eapply write_step_core; [|apply set_write_step]. done.
  - apply negb_true_iff in Hc. unfold on. munfold.
    rewrite (callbacks_get_own _ _ Hc).
    destruct (callbacks w !! eventType); eexists; (split; [done|]);
      unfold write_step; simpl; auto 10.
  - apply negb_true_iff in Hc. unfold off. munfold.
    rewrite (callbacks_get_own _ _ Hc).
    destruct (callbacks w !! eventType); eexists; (split; [done|]);
      unfold write_step; simpl; auto 10.
  - destruct (getStreams_frame w) as (w1 & Hrun & Hc1 & _).
    munfold. rewrite Hrun. eexists. split; [done|].
    eapply write_step_core; [exact Hc1|apply write_step_refl].
Qed.

Lemma run_leaves_listeners body w :
  forallb leaves_listeners body = true →
  ∃ w', run env body w = Normal tt w' ∧ write_step w w'.
Proof.
  revert w. induction body as [|c body IH]; intros w; simpl.
  { eexists. split; [done|]. apply write_step_refl. }
  intros [Hc Hbody]%andb_true_iff.
  destruct (exec_leaves_listeners c w Hc) as (w1 & Hrun & Hstep).
  destruct (IH w1 Hbody) as (w2 & Hrun2 & Hstep2).
  exists w2. munfold. rewrite Hrun. split; [done|].
  by eapply write_step_trans.
Qed.

Lemma flushing_step w0 w w' :
  flushing w0 w → write_step w w' →
  flushing w0 w' ∧ _version w ≤ _version w'.
Proof.
  unfold flushing, write_step, armed.
  intros (Hl & Hf) (Hl' & _ & Hs).
  destruct Hs as [(Hv & Hu & Hp & Hn)|[Hv Ha]].
  - rewrite Hl', Hv, Hu, Hp, Hn. split; [done|lia].
  - split; [|lia]. split; [congruence|].
    destruct Hf as [(Hv0 & Hu0 & Hp0 & Hn0)|(Hv0 & Hu0 & Hp0 & Hn0)];
      rewrite Hu0 in Ha; destruct Ha as (Hu' & Hp' & Hn'); right.
    + rewrite Hp0, Hn0 in Hp'. rewrite Hn0 in Hu', Hn'.
      repeat split; [lia|done..].
    + repeat split; [lia|congruence..].
Qed.

Lemma notify_app ls1 ls2 w :
  notify env (ls1 ++ ls2) w = notify env ls2 (notify env ls1 w).
Proof. revert w. induction ls1 as [|o ls1 IH]; intros w; simpl; [done|]. apply IH. Qed.

(** Listeners that leave the subscriber list alone are notified one after
    the other, each with the generation of the world it is called in. *)
Lemma notify_flushing w0 ls :
  (∀ o, o ∈ ls → ∀ args, forallb leaves_listeners (code env o args) = true) →
  ∀ w, flushing w0 w →
    ∃ gs,
      trace (notify env ls w) = trace w ++ zip_with EvListener ls gs ∧
      length gs = length ls ∧
      (∀ i g, gs !! i = Some g → g = _version (notify env (take i ls) w)) ∧
      flushing w0 (notify env ls w) ∧
      _version w ≤ _version (notify env ls w).
Proof.
  induction ls as [|o ls IH]; intros Hsafe w Hf.
  { exists []. simpl. rewrite app_nil_r. do 2 (split; [done|]).
    split; [by intros i g; rewrite lookup_nil|]. split; [done|lia]. }
  simpl. unfold call.
  destruct (run_leaves_listeners
              (code env o [VNum (Num.of_nat (_version w))])
              (log (EvListener o (_version w)) w))
    as (w1 & Hrun & Hstep).
  { apply Hsafe. by left. }
  rewrite Hrun. simpl.
  destruct (flushing_step w0 (log (EvListener o (_version w)) w) w1)
    as [Hf1 Hv1]; [by destruct Hf|done|].
  simpl in Hv1.
  destruct (IH (λ o' Ho', Hsafe o' (list_elem_of_further _ _ _ Ho')) w1 Hf1)
    as (gs & Htr & Hgs & Hpin & Hf' & Hv').
  exists (_version w :: gs).
  destruct Hstep as (_ & Htr1 & _). simpl in Htr1.
  split; [rewrite Htr, Htr1; simpl; by rewrite <- app_assoc|].
  split; [simpl; congruence|].
  split; [|split; [done|lia]].
  intros [|i] g Hg; simpl in *.
  - by injection Hg as <-.
  - unfold call. rewrite Hrun. simpl. by apply Hpin.
Qed.

(** While the listeners leave the subscriber list alone, the loop of
    [_update] is that notification. *)
Lemma forEach_listener_notify w0 :
  (∀ o, o ∈ listeners w0 →
        ∀ args, forallb leaves_listeners (code env o args) = true) →
  ∀ remaining index w,
    flushing w0 w → index + remaining = length (listeners w0) →
    forEach_listener env remaining index w =
    Normal tt (notify env (drop index (listeners w0)) w).
Proof.
  intros Hsafe. induction remaining as [|remaining IH]; intros index w Hf Hlen.
  { simpl. by rewrite drop_ge by lia. }
  simpl. munfold.
  destruct Hf as [Hl Hf]. rewrite Hl.
  destruct (listeners w0 !! index) as [o|] eqn:Ho;
    [|apply lookup_ge_None in Ho; lia].
  rewrite (drop_S _ _ _ Ho). simpl. unfold call.
  destruct (run_leaves_listeners
              (code env o [VNum (Num.of_nat (_version w))])
              (log (EvListener o (_version w)) w))
    as (w1 & Hrun & Hstep).
  { apply Hsafe. by eapply list_elem_of_lookup_2. }
  rewrite Hrun. simpl.
  destruct (flushing_step w0 (log (EvListener o (_version w)) w) w1)
    as [Hf1 _]; [by split|done|].
  apply IH; [done|lia].
Qed.

End Flush.

(** C1, amended.  A burst of writes of which at least one passes the guard of
    [set] leaves exactly one tick pending (armed by the burst if none was
    pending) and raises the generation by the number of writes that passed.
    When the tick fires, the handle is cleared first and then every
    subscribed listener is invoked once, in subscription order, each with the
    generation current at its own call: listener [i] receives the generation
    of the world the listeners before it have left.  So the first listener
    receives the final generation of the burst, and so do all of them if no
    listener writes; the generations received never decrease, and once a
    listener has written, every listener after it receives a later
    generation than that listener did.  A listener that writes during the
    flush arms a new tick, distinct from the one that fired.  (Listeners here
    neither throw nor change the subscriber list; the attribute object
    inherits from ordinary objects only, and neither the burst nor a listener
    writes to [__proto__].) *)
Theorem burst_is_flushed_once (env : Env) (w : World)
    (writes : list (string * value)) :
  sched_ok w →
  0 < effective_writes writes w →
  ordinary (state_proto w) = true →
  Forall (λ kv, kv.1 ≠ "__proto__") writes →
  (∀ o, o ∈ listeners w →
        ∀ args, forallb leaves_listeners (code env o args) = true ∧
                forallb leaves_prototype (code env o args) = true) →
  let w1 := burst writes w in
  let w0 := with_updateTimer None (with_raf (raf_next w1) [] w1) in
  let w2 := animation_frame env w1 in
  let at_call i := notify env (take i (listeners w1)) w0 in
  _version w1 = effective_writes writes w + _version w ∧
  ∃ h,
    _updateTimer w1 = Some h ∧ raf_pending w1 = [h] ∧
    (_updateTimer w = None → h = raf_next w) ∧
    w2 = notify env (listeners w1) w0 ∧
    ∃ gs,
      trace w2 = trace w1 ++ zip_with EvListener (listeners w1) gs ∧
      length gs = length (listeners w1) ∧
      (∀ i g, gs !! i = Some g → g = _version (at_call i)) ∧
      (∀ g, head gs = Some g → g = _version w1) ∧
      (∀ i j gi gj, i < j → gs !! i = Some gi → gs !! j = Some gj →
         gi ≤ gj ∧ gj ≤ _version w2 ∧
         (_version (at_call i) < _version (at_call (S i)) → gi < gj)) ∧
      (_version w2 = _version w1 →
       (∀ g, g ∈ gs → g = _version w1) ∧
       _updateTimer w2 = None ∧ raf_pending w2 = []) ∧
      (_version w1 < _version w2 →
       ∃ h', h' ≠ h ∧ _updateTimer w2 = Some h' ∧ raf_pending w2 = [h']).
Proof.
  intros Hok Heff _ _ Hsafe' w1 w0 w2 at_call.
  assert (Hsafe : ∀ o, o ∈ listeners w →
            ∀ args, forallb leaves_listeners (code env o args) = true)
    by (intros o Ho args; by destruct (Hsafe' o Ho args)).
  clear Hsafe'.
  pose proof (burst_version writes w) as Hv. fold w1 in Hv.
  pose proof (burst_sched_ok writes w Hok) as Hok1. fold w1 in Hok1.
  pose proof (burst_write_step writes w) as (Hl & _ & Hstep). fold w1 in Hl, Hstep.
  split; [done|].
  assert (Htimer : ∃ h, _updateTimer w1 = Some h ∧
                        (_updateTimer w = None → h = raf_next w)).
  { destruct Hstep as [(Hv' & _)|[_ Ha]]; [lia|]. unfold armed in Ha.
    destruct (_updateTimer w) as [h0|]; destruct Ha as (Hu & _);
      eexists; split; [exact Hu|done|exact Hu|done]. }
  destruct Htimer as (h & Hu1 & Hh). exists h.
  unfold sched_ok in Hok1. rewrite Hu1 in Hok1. destruct Hok1 as [Hp1 Hlt].
  split; [done|]. split; [done|]. split; [done|].
  assert (Hf0 : flushing w0 w0) by (split; [done|left; done]).
  assert (Hsafe1 : ∀ o, o ∈ listeners w1 →
            ∀ args, forallb leaves_listeners (code env o args) = true)
    by (intros o Ho; apply Hsafe; by rewrite <- Hl).
  assert (Hw2 : w2 = notify env (listeners w1) w0).
  { unfold w2, animation_frame. rewrite Hp1. simpl.
    unfold _update. munfold. simpl. fold w0.
    change (listeners w1) with (listeners w0).
    by rewrite (forEach_listener_notify env w0 Hsafe1 _ 0 w0 Hf0 eq_refl). }
  split; [exact Hw2|].
  destruct (notify_flushing env w0 (listeners w1) Hsafe1 w0 Hf0)
    as (gs & Htr & Hgs & Hpin & Hf' & Hv').
  rewrite <- Hw2 in Htr, Hf', Hv'.
  assert (Hmono : ∀ a b, a ≤ b →
            _version (at_call a) ≤ _version (at_call b) ∧
            _version (at_call b) ≤ _version w2).
  { intros a b Hab. unfold at_call.
    assert (Hsub : ∀ ls, ls ⊆ listeners w1 →
              ∀ o, o ∈ ls →
              ∀ args, forallb leaves_listeners (code env o args) = true)
      by (intros ls Hls o Ho; by apply Hsafe1, Hls).
    assert (Hstep' : ∀ n,
              flushing w0 (notify env (take n (listeners w1)) w0) ∧
              _version (notify env (take n (listeners w1)) w0)
              ≤ _version w2).
    { intros n.
      destruct (notify_flushing env w0 (take n (listeners w1))) with (w := w0)
        as (_ & _ & _ & _ & Hfn & _); [|done|].
      { apply Hsub, subseteq_take. }
      split; [done|].
      destruct (notify_flushing env w0 (drop n (listeners w1)))
        with (w := notify env (take n (listeners w1)) w0)
        as (_ & _ & _ & _ & _ & Hle); [|done|].
      { apply Hsub, subseteq_drop. }
      rewrite <- notify_app, take_drop in Hle. by rewrite Hw2. }
    split; [|apply Hstep'].
    replace (take b (listeners w1))
      with (take a (listeners w1) ++ take (b - a) (drop a (listeners w1))).
    2:{ rewrite <- (take_drop a (take b (listeners w1))).
        rewrite take_take, Nat.min_l by lia. f_equal.
        rewrite take_drop_commute. by replace (a + (b - a)) with b by lia. }
    rewrite notify_app.
    destruct (notify_flushing env w0 (take (b - a) (drop a (listeners w1))))
      with (w := notify env (take a (listeners w1)) w0)
      as (_ & _ & _ & _ & _ & Hle); [|apply Hstep'|done].
    apply Hsub. etrans; [apply subseteq_take|apply subseteq_drop]. }
  subst at_call. cbv beta in *. exists gs.
  split; [done|]. split; [done|]. split; [exact Hpin|].
  split.
  { intros g Hg. destruct gs as [|g0 gs]; [done|]. injection Hg as ->.
    by rewrite (Hpin 0 g eq_refl). }
  split.
  { intros i j gi gj Hij Hi Hj.
    rewrite (Hpin _ _ Hi), (Hpin _ _ Hj).
    destruct (Hmono i j) as [H1 H2]; [lia|].
    destruct (Hmono (S i) j) as [H3 _]; [lia|].
    split; [done|]. split; [done|]. lia. }
  destruct Hf' as [_ [(Hv2 & Hu2 & Hp2 & _)|(Hv2 & Hu2 & Hp2 & _)]];
    simpl in *.
  - split; [|lia]. intros _. split; [|done].
    intros g [i Hi]%list_elem_of_lookup_1.
    rewrite (Hpin _ _ Hi).
    destruct (Hmono 0 i) as [H1 H2]; [lia|]. simpl in H1. lia.
  - split; [lia|]. intros _. exists (raf_next w1).
    split; [lia|done].
Qed.

Lemma burst_flush_witness :
  let env := example_env writer in
  let w := two_listeners in
  let writes := [("timestamp", num 10); ("lookAhead", num 2)] in
  sched_ok w ∧ 0 < effective_writes writes w ∧
  _version (burst writes w) = 2 ∧
  trace (animation_frame env (burst writes w))
  = [EvListener 0 2; EvListener 1 3] ∧
  ∃ h h', h' ≠ h ∧
    _updateTimer (burst writes w) = Some h ∧
    _updateTimer (animation_frame env (burst writes w)) = Some h'.
Proof.
  intros env w writes.
  assert (Hok : sched_ok w) by reflexivity.
  assert (Heff : 0 < effective_writes writes w) by (vm_compute; lia).
  assert (Hord : ordinary (state_proto w) = true) by reflexivity.
  assert (Hkeys : Forall (λ kv : string * value, kv.1 ≠ "__proto__") writes)
    by (repeat constructor; done).
  assert (Hsafe : ∀ o, o ∈ listeners w →
            ∀ args, forallb leaves_listeners (code env o args) = true ∧
                    forallb leaves_prototype (code env o args) = true)
    by (intros [|o] _ args; split; reflexivity).
  split; [exact Hok|]. split; [exact Heff|].
  destruct (burst_is_flushed_once env w writes Hok Heff Hord Hkeys Hsafe)
    as (Hv & h & Hu & _ & _ & _ & gs & Htr & Hgs & Hpin & _ & _ & _ & Hnew).
  split; [exact Hv|].
  split.
  { rewrite Htr.
    destruct gs as [|g0 [|g1 [|]]]; try discriminate Hgs.
    rewrite (Hpin 0 g0 eq_refl), (Hpin 1 g1 eq_refl). by vm_compute. }
  destruct Hnew as (h' & Hne & Hu' & _); [vm_compute; lia|].
  exists h, h'. split; [exact Hne|]. split; [exact Hu|exact Hu'].
Defined.

(** C1 as stated fails when a listener writes during the flush: the burst
    ends at generation 1, listener 0 writes on being notified, and listener 1
    is then invoked with generation 2. *)
Lemma later_listener_sees_later_generation :
  ¬ notifies_with_final_generation (example_env writer)
      (burst [("timestamp", num 10)] two_listeners).
Proof.
  unfold notifies_with_final_generation. vm_compute. discriminate.
Qed.

(** * Further properties of the loader *)

(** ** Writes that change the stored value *)

Lemma set_armed key v w :
  effective key v w = true → armed w (set key v w).
Proof.
  intros He.
  destruct (assign_fields key v w) as (_ & _ & _ & _ & Hu & _ & Hn & Hp & _).
  rewrite set_effective by done. unfold armed.
  destruct (_updateTimer w) eqn:Ht; simpl; rewrite ?Hu, ?Hp, ?Hn, ?Ht;
    by repeat split.
Qed.

(** X1.  A write whose value differs ([!==]) from what [get] returns raises the
    generation by one and arms a tick unless one is pending, and leaves the
    subscribers, the callbacks and the heap alone.  Under every key but
    [__proto__] it stores exactly the value written and changes what no other
    key reads.  Under [__proto__], on an attribute object that holds no such
    property itself, a value that is neither an object nor [null] is not
    stored at all: every key reads as before, so the same write counts
    again.  (The attribute object inherits from ordinary objects only.) *)
Theorem effective_write_is_stored key v w :
  ordinary (state_proto w) = true →
  strict_equals (get key w) v = false →
  (key ≠ "__proto__" →
   get key (set key v w) = v ∧
   ∀ key', key' ≠ key → get key' (set key v w) = get key' w) ∧
  (key = "__proto__" → state w !! key = None →
   has_setter (state_proto w) = true → is_prototype v = false →
   (∀ key', get key' (set key v w) = get key' w) ∧
   strict_equals (get key (set key v w)) v = false) ∧
  _version (set key v w) = S (_version w) ∧
  armed w (set key v w) ∧
  listeners (set key v w) = listeners w ∧
  callbacks (set key v w) = callbacks w ∧
  heap (set key v w) = heap w.
Proof.
  intros _ Hne.
  assert (He : effective key v w = true) by (unfold effective; by rewrite Hne).
  destruct (set_fields key v w) as (Hc & Hl & _).
  split.
  { intros Hk. split; [by apply get_set_effective|].
    intros key' Hk'. by apply set_get_ne. }
  split.
  { intros -> Hown Hset Hv.
    assert (Hsame : ∀ key', get key' (set "__proto__" v w) = get key' w).
    { intros key'. rewrite set_effective by done.
      replace (get key' _) with (get key' (assign "__proto__" v w))
        by (by destruct (_updateTimer w)).
      unfold assign. rewrite Hown, Hset, Hv. done. }
    split; [exact Hsame|]. by rewrite Hsame. }
  split; [rewrite set_version, He; lia|].
  split; [by apply set_armed|]. by rewrite set_heap.
Qed.

Lemma effective_write_witness :
  ordinary (state_proto constructor) = true ∧
  strict_equals (get "timestamp" constructor) (num 3) = false ∧
  get "timestamp" (set "timestamp" (num 3) constructor) = num 3 ∧
  _version (set "timestamp" (num 3) constructor) = 1.
Proof.
  assert (Ho : ordinary (state_proto constructor) = true) by reflexivity.
  assert (H : strict_equals (get "timestamp" constructor) (num 3) = false)
    by reflexivity.
  assert (Hk : "timestamp" ≠ "__proto__") by done.
  destruct (effective_write_is_stored "timestamp" (num 3) constructor Ho H)
    as (Hget & _ & Hv & _).
  split; [exact Ho|]. split; [exact H|].
  split; [exact (proj1 (Hget Hk))|exact Hv].
Defined.

(** ** Registering and removing callbacks and listeners *)

Lemma indexOf_absent f l : f ∉ l → indexOf f l = None.
Proof.
  intros Hf. unfold indexOf.
  destruct (list_find _ l) as [[i x]|] eqn:Hfind; [|done].
  apply list_find_Some in Hfind as (Hi & -> & _).
  exfalso. apply Hf. by eapply list_elem_of_lookup_2.
Qed.

Lemma remove_first_absent f l : f ∉ l → remove_first f l = l.
Proof. intros Hf. unfold remove_first. by rewrite indexOf_absent. Qed.

Lemma remove_first_earliest f pre post :
  f ∉ pre → remove_first f (pre ++ f :: post) = pre ++ post.
Proof.
  intros Hf. unfold remove_first, indexOf.
  assert (Hfind : list_find (λ o, o = f) (pre ++ f :: post)
                  = Some (length pre, f)).
  { apply list_find_Some. split; [by apply list_lookup_middle|].
    split; [done|]. intros j y Hj Hlt ->.
    rewrite lookup_app_l in Hj by done.
    apply Hf. by eapply list_elem_of_lookup_2. }
  rewrite Hfind. simpl. apply delete_middle.
Qed.

(** X2.  [off] removes the earliest registration of the callback for that event
    type and nothing else. *)
Theorem off_removes_earliest_registration eventType cb pre post w :
  callbacks w !! eventType = Some (pre ++ cb :: post) →
  cb ∉ pre →
  ∃ w', off eventType cb w = Normal tt w' ∧
    callbacks w' !! eventType = Some (pre ++ post) ∧
    (∀ other, other ≠ eventType →
       callbacks w' !! other = callbacks w !! other) ∧
    core (with_callbacks (callbacks w) w') = core w.
Proof.
  intros Hreg Hpre. unfold off, callbacks_get. munfold. rewrite Hreg.
  eexists. split; [done|]. simpl.
  rewrite remove_first_earliest by done.
  split; [apply lookup_insert_eq|].
  split; [|done]. intros other Hne. by apply lookup_insert_ne.
Qed.

Lemma off_removes_witness :
  let w := registering "update" [7; 4; 7] constructor in
  callbacks w !! "update" = Some ([] ++ 7 :: [4; 7]) ∧
  ∃ w', off "update" 7 w = Normal tt w' ∧
        callbacks w' !! "update" = Some [4; 7].
Proof.
  intros w.
  assert (Hreg : callbacks w !! "update" = Some ([] ++ 7 :: [4; 7]))
    by (vm_compute; reflexivity).
  assert (Hpre : 7 ∉ @nil fn) by apply not_elem_of_nil.
  split; [exact Hreg|].
  destruct (off_removes_earliest_registration "update" 7 [] [4; 7] w
              Hreg Hpre) as (w' & Hrun & Hoff & _).
  exists w'. split; [exact Hrun|exact Hoff].
Defined.

(** X3.  Under an event type that is no inherited name, or that has callbacks
    registered, [off] for a callback that is not registered changes nothing,
    and [on] followed by [off] of such a callback gives back the callback
    list.  Under a name the registry inherits ([toString], [constructor],
    [__proto__], ...) and holds no array for, both calls are a [TypeError]:
    [off] changes nothing, and [on] leaves the registered arrays as they
    were. *)
Theorem off_of_unregistered_callback eventType cb w :
  (inherited_name eventType = false ∨ is_Some (callbacks w !! eventType) →
   cb ∉ default [] (callbacks w !! eventType) →
   off eventType cb w = Normal tt w ∧
   ∃ w1 w2,
     on eventType cb w = Normal tt w1 ∧
     off eventType cb w1 = Normal tt w2 ∧
     default [] (callbacks w2 !! eventType)
     = default [] (callbacks w !! eventType)) ∧
  (inherited_name eventType = true → callbacks w !! eventType = None →
   off eventType cb w = Thrown TypeError w ∧
   ∃ w', on eventType cb w = Thrown TypeError w' ∧
         callbacks w' = callbacks w ∧
         core (with_shadowed (shadowed w) w') = core w).
Proof.
  split.
  - intros Hown Hcb.
    assert (Hget : callbacks_get eventType w =
              match callbacks w !! eventType with
              | Some cbs => Registered cbs
              | None => Unregistered
              end).
    { destruct Hown as [Hname|[cbs Hreg]]; [by apply callbacks_get_own|].
      unfold callbacks_get. by rewrite Hreg. }
    split.
    + unfold off. munfold. rewrite Hget.
      destruct (callbacks w !! eventType) as [cbs|] eqn:Hreg; [|done].
      simpl in Hcb. rewrite remove_first_absent by done.
      rewrite insert_id by done. by destruct w.
    + unfold on, off. munfold. rewrite Hget.
      destruct (callbacks w !! eventType) as [cbs|] eqn:Hreg; simpl in *.
      * eexists _, _. split; [done|]. unfold callbacks_get. simpl.
        rewrite lookup_insert_eq. split; [done|]. simpl.
        rewrite lookup_insert_eq. simpl.
        replace (cbs ++ [cb]) with (cbs ++ cb :: []) by done.
        rewrite remove_first_earliest by done. by rewrite app_nil_r.
      * eexists _, _. split; [done|]. unfold callbacks_get. simpl.
        rewrite lookup_insert_eq. split; [done|]. simpl.
        rewrite lookup_insert_eq. simpl.
        change [cb] with ([] ++ cb :: []).
        by rewrite remove_first_earliest by apply not_elem_of_nil.
  - intros Hname Hreg.
    assert (Hget : ∃ o, callbacks_get eventType w = Inherited o).
    { unfold callbacks_get, inherited_name in *. rewrite Hreg.
      destruct (Object_prototype_get _ _); try done; by eexists. }
    destruct Hget as [o Hget]. unfold on, off. munfold. rewrite Hget.
    split; [done|].
    destruct (String.eqb eventType "__proto__"); eexists; (split; [done|]);
      split; try done; by destruct w.
Qed.

Lemma off_unregistered_witness :
  let w := registering "update" [4] constructor in
  (inherited_name "update" = false ∨ is_Some (callbacks w !! "update")) ∧
  (7 ∉ default [] (callbacks w !! "update")) ∧
  off "update" 7 w = Normal tt w ∧
  inherited_name "toString" = true ∧ callbacks w !! "toString" = None ∧
  off "toString" 7 w = Thrown TypeError w.
Proof.
  intros w.
  assert (Hname : inherited_name "update" = false
                  ∨ is_Some (callbacks w !! "update")) by (by left).
  assert (H : 7 ∉ default [] (callbacks w !! "update")).
  { vm_compute. intros Hin. apply list_elem_of_In in Hin.
    destruct Hin as [Hin|[]]. discriminate. }
  assert (Hinh : inherited_name "toString" = true) by reflexivity.
  assert (Hnone : callbacks w !! "toString" = None) by reflexivity.
  split; [exact Hname|]. split; [exact H|].
  split;
    [exact (proj1 (proj1 (off_of_unregistered_callback "update" 7 w) Hname H))|].
  split; [exact Hinh|]. split; [exact Hnone|].
  exact (proj1 (proj2 (off_of_unregistered_callback "toString" 7 w)
                  Hinh Hnone)).
Defined.

(** X4.  [unsubscribe] removes the earliest subscription of the instance, keeps
    the other subscribers in order and touches nothing else. *)
Theorem unsubscribe_removes_earliest_subscription instance pre post w :
  listeners w = pre ++ instance :: post →
  instance ∉ pre →
  listeners (unsubscribe instance w) = pre ++ post ∧
  with_listeners (listeners w) (unsubscribe instance w) = w.
Proof.
  intros Hl Hpre. unfold unsubscribe. simpl.
  rewrite Hl at 1. split; [by apply remove_first_earliest|by destruct w].
Qed.

Lemma unsubscribe_removes_witness :
  let w := subscribe 2 (subscribe 5 (subscribe 2 constructor)) in
  listeners w = [] ++ 2 :: [5; 2] ∧
  listeners (unsubscribe 2 w) = [5; 2].
Proof.
  intros w.
  assert (Hl : listeners w = [] ++ 2 :: [5; 2]) by reflexivity.
  assert (Hpre : 2 ∉ @nil fn) by apply not_elem_of_nil.
  split; [exact Hl|].
  exact (proj1 (unsubscribe_removes_earliest_subscription 2 [] [5; 2] w
                  Hl Hpre)).
Defined.

(** X5.  Unsubscribing an instance that is not subscribed changes nothing, and
    subscribing then unsubscribing such an instance gives back the loader as
    it was. *)
Theorem unsubscribe_of_absent_instance instance w :
  instance ∉ listeners w →
  unsubscribe instance w = w ∧
  unsubscribe instance (subscribe instance w) = w.
Proof.
  intros Hnot. split.
  - unfold unsubscribe. rewrite remove_first_absent by done. by destruct w.
  - unfold unsubscribe, subscribe. simpl.
    rewrite remove_first_earliest by done. rewrite app_nil_r. by destruct w.
Qed.

Lemma unsubscribe_absent_witness :
  let w := subscribe 5 constructor in
  (2 ∉ listeners w) ∧ unsubscribe 2 (subscribe 2 w) = w.
Proof.
  intros w.
  assert (H : 2 ∉ listeners w).
  { intros Hin. apply list_elem_of_In in Hin.
    destruct Hin as [Hin|[]]. discriminate. }
  split; [exact H|].
  exact (proj2 (unsubscribe_of_absent_instance 2 w H)).
Defined.

(** ** What every call into the loader preserves *)

Section Invariance.
Context (env : Env).

(** A relation between the world before and after that every elementary step
    of the loader respects is respected by every call on the loader, by every
    callback body, by the notification of listeners and by [emit]. *)
Context (R : World → World → Prop).
Hypothesis R_refl : ∀ w, R w w.
Hypothesis R_trans : ∀ w1 w2 w3, R w1 w2 → R w2 w3 → R w1 w3.
Hypothesis R_set : ∀ key v w, R w (set key v w).
Hypothesis R_memo : ∀ c m w, R w (write_memo c m w).
Hypothesis R_alloc :
  ∀ o w, R w (with_heap (<[fresh (dom (heap w)) := o]> (heap w)) w).
Hypothesis R_sync :
  ∀ r time0 lookAhead0 time lookAhead w,
    heap w !! r = Some (OSync time0 lookAhead0) →
    R w (with_heap (<[r := OSync time lookAhead]> (heap w)) w).
Hypothesis R_listeners : ∀ l w, R w (with_listeners l w).
Hypothesis R_callbacks : ∀ c w, R w (with_callbacks c w).
Hypothesis R_shadowed : ∀ x w, R w (with_shadowed x w).
Hypothesis R_log : ∀ e w, R w (log e w).

Local Notation "'respects' m" := (∀ w, R w (final (m w)))
  (at level 10, m at level 9).

Lemma respects_bind {A B} (m : M A) (k : A → M B) :
  respects m → (∀ a, respects (k a)) → respects (m ≫= k).
Proof.
  intros Hm Hk w. unfold mbind, M_bind, bind. specialize (Hm w).
  destruct (m w) as [a w1|e w1]; simpl in *; [|done].
  eapply R_trans; [exact Hm|apply Hk].
Qed.

Lemma respects_modify (f : World → World) :
  (∀ w, R w (f w)) → respects (modify f).
Proof. intros Hf w. apply Hf. Qed.

Lemma respects_gets {A} (f : World → A) : respects (gets f).
Proof. intros w. apply R_refl. Qed.

Lemma respects_ret {A} (a : A) : respects (mret a : M A).
Proof. intros w. apply R_refl. Qed.

Lemma respects_throw {A} e : respects (throw e : M A).
Proof. intros w. apply R_refl. Qed.

Lemma respects_createSelector c inputs combinator :
  Forall (λ input : M value, respects input) inputs →
  (∀ ins, respects (combinator ins)) →
  respects (createSelector c inputs combinator).
Proof.
  intros Hin Hcomb. unfold createSelector.
  assert (Hfresh : ∀ ins,
    respects (out ← combinator ins;
              modify (write_memo c (Some (ins, out)));; mret out)).
  { intros ins. apply respects_bind; [apply Hcomb|]. intros out.
    apply respects_bind; [by apply respects_modify|].
    intros _. apply respects_ret. }
  apply respects_bind.
  { induction Hin as [|input inputs Hinput _ IH]; [intros w; apply R_refl|].
    change (respects (v ← input; vs ← eval_inputs inputs; mret (v :: vs))).
    apply respects_bind; [exact Hinput|]. intros v.
    apply respects_bind; [exact IH|]. intros vs. apply respects_ret. }
  intros ins. apply respects_bind; [apply respects_gets|].
  intros [[prev out]|]; [|apply Hfresh].
  destruct (same_inputs prev ins); [apply respects_ret|apply Hfresh].
Qed.

Lemma getStreams_respects : respects getStreams.
Proof.
  apply respects_createSelector.
  { repeat constructor; apply respects_gets. }
  intros [|ss [|st [|]]]; try apply respects_ret.
  destruct (_ || _); [apply respects_ret|].
  apply respects_bind; [apply respects_gets|]. intros h w.
  unfold new_object, alloc. simpl. apply R_alloc.
Qed.

Lemma getLogStartTime_respects : respects (getLogStartTime env).
Proof.
  apply respects_createSelector.
  { repeat constructor; apply respects_gets. }
  intros [|md [|]]; try apply respects_ret.
  apply respects_bind; [apply respects_gets|]. intros h. apply respects_ret.
Qed.

Lemma getLogEndTime_respects : respects getLogEndTime.
Proof.
  apply respects_createSelector.
  { repeat constructor; apply respects_gets. }
  intros [|md [|]]; try apply respects_ret.
  apply respects_bind; [apply respects_gets|]. intros h. apply respects_ret.
Qed.

Lemma synchronizer_respects sync : respects (synchronizer sync).
Proof.
  intros w. unfold synchronizer.
  destruct sync; try apply R_refl.
  destruct (heap w !! r) as [[]|]; apply R_refl.
Qed.

(** A synchronizer that was found is still there when its fields are
    written. *)
Lemma synchronizer_found sync w r time lookAhead w' :
  synchronizer sync w = Normal (r, time, lookAhead) w' →
  w' = w ∧ heap w !! r = Some (OSync time lookAhead).
Proof.
  unfold synchronizer. destruct sync; try done.
  destruct (heap w !! r0) as [[]|] eqn:Hr; try done.
  by intros [= <- <- <- <-].
Qed.

Lemma sync_setTime_respects sync timestamp :
  respects (sync_setTime sync timestamp).
Proof.
  intros w. unfold sync_setTime. munfold.
  destruct (synchronizer sync w) as [[[r time] lookAhead] w'|e w'] eqn:Hs.
  - apply synchronizer_found in Hs as [-> Hr]. simpl.
    eapply R_trans; [by eapply R_sync|apply R_log].
  - pose proof (synchronizer_respects sync w) as H. by rewrite Hs in H.
Qed.

Lemma sync_setLookAheadTimeOffset_respects sync offset :
  respects (sync_setLookAheadTimeOffset sync offset).
Proof.
  intros w. unfold sync_setLookAheadTimeOffset. munfold.
  destruct (synchronizer sync w) as [[[r time] lookAhead] w'|e w'] eqn:Hs.
  - apply synchronizer_found in Hs as [-> Hr]. simpl.
    eapply R_trans; [by eapply R_sync|apply R_log].
  - pose proof (synchronizer_respects sync w) as H. by rewrite Hs in H.
Qed.

Lemma sync_getCurrentFrame_respects sync streamSettings :
  respects (sync_getCurrentFrame env sync streamSettings).
Proof.
  unfold sync_getCurrentFrame.
  apply respects_bind; [apply synchronizer_respects|].
  intros [[r time] lookAhead].
  apply respects_bind; [by apply respects_modify|].
  intros _. apply respects_ret.
Qed.

Lemma getCurrentFrame_respects : respects (getCurrentFrame env).
Proof.
  apply respects_createSelector.
  { repeat constructor; try apply respects_gets. apply getStreams_respects. }
  intros [|sync [|ss [|t [|la [|st [|]]]]]]; try apply respects_ret.
  destruct (_ && _); [|apply respects_ret].
  apply respects_bind; [apply sync_setTime_respects|]. intros _.
  apply respects_bind; [apply sync_setLookAheadTimeOffset_respects|].
  intros _. apply sync_getCurrentFrame_respects.
Qed.

Lemma seek_respects timestamp : respects (seek env timestamp).
Proof.
  unfold seek.
  apply respects_bind; [apply respects_gets|]. intros metadata.
  apply respects_bind; [|intros t; by apply respects_modify].
  destruct (truthy metadata); [|apply respects_ret].
  apply respects_bind; [apply getLogStartTime_respects|]. intros s.
  apply respects_bind; [apply getLogEndTime_respects|]. intros e.
  destruct (_ && _); apply respects_ret.
Qed.

Lemma updateStreamSettings_respects settings :
  respects (updateStreamSettings settings).
Proof.
  unfold updateStreamSettings.
  apply respects_bind; [apply respects_gets|]. intros ss.
  apply respects_bind; [apply respects_gets|]. intros h.
  apply respects_bind; [|intros merged; by apply respects_modify].
  intros w. unfold new_object, alloc. simpl. apply R_alloc.
Qed.

Lemma _setMetadata_respects metadata : respects (_setMetadata env metadata).
Proof.
  unfold _setMetadata.
  apply respects_bind; [by apply respects_modify|]. intros _.
  apply respects_bind.
  { destruct (nullish metadata); [apply respects_throw|apply respects_ret]. }
  intros _. apply respects_bind; [apply respects_gets|]. intros h.
  apply respects_bind.
  { destruct (_ && _); [by apply respects_modify|apply respects_ret]. }
  intros _. apply respects_bind; [apply respects_gets|]. intros timestamp.
  cbv zeta.
  generalize (if Number_isFinite timestamp then timestamp
              else get_prop h metadata "start_time").
  intros newTimestamp.
  destruct (Number_isFinite newTimestamp);
    [apply seek_respects|apply respects_ret].
Qed.

Lemma on_respects eventType cb : respects (on eventType cb).
Proof.
  unfold on. apply respects_bind; [apply respects_gets|].
  intros [cbs|o|]; try by apply respects_modify.
  apply respects_bind; [|intros _; apply respects_throw].
  destruct (String.eqb _ _); [apply respects_ret|by apply respects_modify].
Qed.

Lemma off_respects eventType cb : respects (off eventType cb).
Proof.
  unfold off. apply respects_bind; [apply respects_gets|].
  intros [cbs|o|];
    [by apply respects_modify|apply respects_throw|apply respects_ret].
Qed.

Lemma exec_respects c : respects (exec env c).
Proof.
  destruct c; unfold exec.
  - by apply respects_modify.
  - apply seek_respects.
  - by apply respects_modify.
  - apply updateStreamSettings_respects.
  - apply respects_modify. intros w. apply R_listeners.
  - apply respects_modify. intros w. apply R_listeners.
  - apply on_respects.
  - apply off_respects.
  - apply respects_bind; [apply getStreams_respects|].
    intros _. apply respects_ret.
  - apply respects_bind; [apply getCurrentFrame_respects|].
    intros _. apply respects_ret.
  - apply _setMetadata_respects.
  - apply respects_throw.
Qed.

Lemma run_respects body : respects (run env body).
Proof.
  induction body as [|c body IH]; [intros w; apply R_refl|].
  change (respects (exec env c;; run env body)).
  apply respects_bind; [apply exec_respects|]. intros _. exact IH.
Qed.

Lemma forEach_listener_respects remaining index :
  respects (forEach_listener env remaining index).
Proof.
  revert index. induction remaining as [|remaining IH]; intros index;
    [intros w; apply R_refl|].
  change (respects
    (o ← gets (λ w, listeners w !! index);
     match o with
     | Some o =>
         v ← gets _version;
         modify (log (EvListener o v));;
         call env o [VNum (Num.of_nat v)];;
         forEach_listener env remaining (S index)
     | None => forEach_listener env remaining (S index)
     end)).
  apply respects_bind; [apply respects_gets|].
  intros [o|]; [|apply IH].
  apply respects_bind; [apply respects_gets|]. intros v.
  apply respects_bind; [by apply respects_modify|]. intros _.
  apply respects_bind; [apply run_respects|]. intros _. apply IH.
Qed.

Lemma emit_loop_respects fuel eventType eventArgs index w o :
  emit_loop env fuel eventType eventArgs index w = Some o → R w (final o).
Proof.
  revert index w. induction fuel as [|fuel IH]; intros index w; simpl;
    [done|].
  destruct (default [] (callbacks w !! eventType) !! index) as [cb|];
    [|intros [= <-]; done].
  unfold call.
  pose proof (run_respects (code env cb [VStr eventType; eventArgs])
                (log (EvCallback cb eventType eventArgs) w)) as Hrun.
  destruct (run env _ _) as [[] w1|e w1]; simpl in *.
  - intros Hloop. apply IH in Hloop. eauto.
  - intros [= <-]. simpl. eauto.
Qed.

Lemma emit_respects fuel eventType eventArgs w o :
  emit env fuel eventType eventArgs w = Some o → R w (final o).
Proof.
  unfold emit.
  destruct (callbacks_get eventType w).
  - destruct (emit_loop env fuel eventType eventArgs 0 w) as [[[] w1|e w1]|]
      eqn:Hloop; try done; apply emit_loop_respects in Hloop;
      intros [= <-]; simpl in *; eauto.
  - intros [= <-]. simpl. eauto.
  - intros [= <-]. simpl. eauto.
Qed.

Hypothesis R_timer : ∀ t w, R w (with_updateTimer t w).
Hypothesis R_raf : ∀ n q w, R w (with_raf n q w).

Lemma update_respects : respects (_update env).
Proof.
  unfold _update.
  apply respects_bind; [by apply respects_modify|]. intros _.
  apply respects_bind; [apply respects_gets|]. intros len.
  apply forEach_listener_respects.
Qed.

Lemma run_callbacks_respects queued w : R w (run_callbacks env queued w).
Proof.
  revert w. induction queued as [|h queued IH]; intros w; simpl; [done|].
  eapply R_trans; [apply update_respects|apply IH].
Qed.

Lemma animation_frame_respects w : R w (animation_frame env w).
Proof.
  unfold animation_frame.
  eapply R_trans; [apply R_raf|apply run_callbacks_respects].
Qed.

End Invariance.

(** X9.  The generation never decreases: not by any call a callback makes, not by
    a flush with arbitrary listeners, and not by [emit]. *)
Theorem generation_never_decreases env w :
  (∀ c, _version w ≤ _version (final (exec env c w))) ∧
  _version w ≤ _version (animation_frame env w) ∧
  ∀ fuel eventType eventArgs,
    match emit env fuel eventType eventArgs w with
    | Some o => _version w ≤ _version (final o)
    | None => True
    end.
Proof.
  set (R := λ w w' : World, _version w ≤ _version w').
  assert (R_refl : ∀ w, R w w) by (intros; unfold R; lia).
  assert (R_trans : ∀ w1 w2 w3, R w1 w2 → R w2 w3 → R w1 w3)
    by (unfold R; intros; lia).
  assert (R_set : ∀ key v w, R w (set key v w))
    by (intros; unfold R; rewrite set_version; lia).
  assert (R_memo : ∀ c m w, R w (write_memo c m w)) by (intros; unfold R; simpl; lia).
  assert (R_alloc : ∀ o w,
            R w (with_heap (<[fresh (dom (heap w)) := o]> (heap w)) w))
    by (intros; unfold R; simpl; lia).
  assert (R_sync : ∀ r time0 lookAhead0 time lookAhead w,
            heap w !! r = Some (OSync time0 lookAhead0) →
            R w (with_heap (<[r := OSync time lookAhead]> (heap w)) w))
    by (intros; unfold R; simpl; lia).
  assert (R_listeners : ∀ l w, R w (with_listeners l w))
    by (intros; unfold R; simpl; lia).
  assert (R_callbacks : ∀ c w, R w (with_callbacks c w))
    by (intros; unfold R; simpl; lia).
  assert (R_shadowed : ∀ x w, R w (with_shadowed x w))
    by (intros; unfold R; simpl; lia).
  assert (R_log : ∀ e w, R w (log e w)) by (intros; unfold R; simpl; lia).
  assert (R_timer : ∀ t w, R w (with_updateTimer t w))
    by (intros; unfold R; simpl; lia).
  assert (R_raf : ∀ n q w, R w (with_raf n q w)) by (intros; unfold R; simpl; lia).
  split; [intros c; by apply (exec_respects env R)|].
  split; [by apply (animation_frame_respects env R)|].
  intros fuel eventType eventArgs.
  destruct (emit env fuel eventType eventArgs w) as [o|] eqn:Hemit; [|done].
  by apply (emit_respects env R) in Hemit.
Qed.

Lemma survives_here o r w : heap w !! r = Some o → survives o r w.
Proof. intros Hr. destruct o; simpl; eauto. Qed.

(** X10.  No object on the heap is ever removed, and no ordinary object is ever
    changed: not by a call on the loader ([set], [seek], [setLookAhead],
    [updateStreamSettings], [subscribe], [unsubscribe], [on], [off],
    [getStreams], [getCurrentFrame], [_setMetadata]), not by a flush, and not
    by [emit].  Stream settings and visible streams are always new objects;
    the only object the loader writes to is the synchronizer, which stays a
    synchronizer. *)
Theorem objects_are_never_changed env w r o :
  heap w !! r = Some o →
  (∀ c, survives o r (final (exec env c w))) ∧
  survives o r (animation_frame env w) ∧
  survives o r (final (getStreams w)) ∧
  survives o r (final (getCurrentFrame env w)) ∧
  ∀ fuel eventType eventArgs,
    match emit env fuel eventType eventArgs w with
    | Some out => survives o r (final out)
    | None => True
    end.
Proof.
  intros Hr.
  set (R := λ w w' : World,
         ∀ r o, heap w !! r = Some o → survives o r w').
  assert (R_refl : ∀ w, R w w) by (intros ???; apply survives_here).
  assert (R_trans : ∀ w1 w2 w3, R w1 w2 → R w2 w3 → R w1 w3).
  { intros w1 w2 w3 H12 H23 r' o' Hr'. specialize (H12 _ _ Hr').
    destruct o'; simpl in *; try by apply (H23 _ _ H12).
    destruct H12 as (t & l & H12). by apply (H23 _ _ H12). }
  assert (R_set : ∀ key v w, R w (set key v w))
    by (intros ??????; apply survives_here; by rewrite set_heap).
  assert (R_memo : ∀ c m w, R w (write_memo c m w))
    by (intros ??????; by apply survives_here).
  assert (R_alloc : ∀ o w,
            R w (with_heap (<[fresh (dom (heap w)) := o]> (heap w)) w)).
  { intros o' w' r' o'' Hr'. apply survives_here. simpl.
    rewrite lookup_insert_ne; [done|].
    intros <-. by rewrite fresh_unallocated in Hr'. }
  assert (R_sync : ∀ r time0 lookAhead0 time lookAhead w,
            heap w !! r = Some (OSync time0 lookAhead0) →
            R w (with_heap (<[r := OSync time lookAhead]> (heap w)) w)).
  { intros r0 time0 lookAhead0 time lookAhead w' Hr0 r' o' Hr'.
    destruct (decide (r0 = r')) as [<-|Hne].
    - rewrite Hr0 in Hr'. injection Hr' as <-. simpl.
      rewrite lookup_insert_eq. eauto.
    - apply survives_here. simpl. by rewrite lookup_insert_ne. }
  assert (R_listeners : ∀ l w, R w (with_listeners l w))
    by (intros ?????; by apply survives_here).
  assert (R_callbacks : ∀ c w, R w (with_callbacks c w))
    by (intros ?????; by apply survives_here).
  assert (R_shadowed : ∀ x w, R w (with_shadowed x w))
    by (intros ?????; by apply survives_here).
  assert (R_log : ∀ e w, R w (log e w))
    by (intros ?????; by apply survives_here).
  assert (R_timer : ∀ t w, R w (with_updateTimer t w))
    by (intros ?????; by apply survives_here).
  assert (R_raf : ∀ n q w, R w (with_raf n q w))
    by (intros ??????; by apply survives_here).
  split; [intros c; by apply (exec_respects env R)|].
  split; [by apply (animation_frame_respects env R)|].
  split; [by apply (getStreams_respects R)|].
  split; [by apply (getCurrentFrame_respects env R)|].
  intros fuel eventType eventArgs.
  destruct (emit env fuel eventType eventArgs w) as [out|] eqn:Hemit; [|done].
  apply (emit_respects env R) in Hemit; try done. by apply Hemit.
Qed.

Lemma objects_unchanged_witness :
  let w := settings_a.2 in
  heap w !! 1%positive = Some (OPlain {[ "a" := num 1 ]}) ∧
  heap (final (updateStreamSettings (VRef 1%positive) w)) !! 1%positive
  = Some (OPlain {[ "a" := num 1 ]}) ∧
  heap playing !! 1%positive = Some (OSync VUndefined VUndefined) ∧
  ∃ time lookAhead,
    heap (final (getCurrentFrame (example_env no_code) playing)) !! 1%positive
    = Some (OSync time lookAhead).
Proof.
  intros w.
  assert (H : heap w !! 1%positive = Some (OPlain {[ "a" := num 1 ]}))
    by (vm_compute; reflexivity).
  assert (Hs : heap playing !! 1%positive = Some (OSync VUndefined VUndefined))
    by (vm_compute; reflexivity).
  split; [exact H|].
  destruct (objects_are_never_changed (example_env no_code) w _ _ H)
    as (Hexec & _).
  split; [exact (Hexec (CallUpdateStreamSettings (VRef 1%positive)))|].
  split; [exact Hs|].
  destruct (objects_are_never_changed (example_env no_code) playing _ _ Hs)
    as (_ & _ & _ & Hframe & _).
  exact Hframe.
Defined.

(** X8.  At most one tick is ever pending, and it is the one the loader
    remembers: this holds of a new loader and is kept by every call a
    callback makes, by [emit], and by a flush whatever the listeners do
    (write, subscribe, unsubscribe or throw). *)
Theorem one_tick_at_most env w :
  sched_ok w →
  (∀ c, sched_ok (final (exec env c w))) ∧
  sched_ok (animation_frame env w) ∧
  ∀ fuel eventType eventArgs,
    match emit env fuel eventType eventArgs w with
    | Some o => sched_ok (final o)
    | None => True
    end.
Proof.
  intros Hok.
  set (R := λ w w' : World, sched_ok w → sched_ok w').
  assert (R_refl : ∀ w, R w w) by (by intros ??).
  assert (R_trans : ∀ w1 w2 w3, R w1 w2 → R w2 w3 → R w1 w3)
    by (unfold R; eauto).
  assert (R_set : ∀ key v w, R w (set key v w))
    by (intros ????; by apply set_sched_ok).
  assert (R_memo : ∀ c m w, R w (write_memo c m w)) by (by intros ????).
  assert (R_alloc : ∀ o w,
            R w (with_heap (<[fresh (dom (heap w)) := o]> (heap w)) w))
    by (by intros ???).
  assert (R_sync : ∀ r time0 lookAhead0 time lookAhead w,
            heap w !! r = Some (OSync time0 lookAhead0) →
            R w (with_heap (<[r := OSync time lookAhead]> (heap w)) w))
    by (by intros ????????).
  assert (R_listeners : ∀ l w, R w (with_listeners l w)) by (by intros ???).
  assert (R_callbacks : ∀ c w, R w (with_callbacks c w)) by (by intros ???).
  assert (R_shadowed : ∀ x w, R w (with_shadowed x w)) by (by intros ???).
  assert (R_log : ∀ e w, R w (log e w)) by (by intros ???).
  split; [intros c; by apply (exec_respects env R)|].
  split.
  - unfold animation_frame. unfold sched_ok in Hok.
    destruct (_updateTimer w) as [h|] eqn:Ht.
    + destruct Hok as [-> Hlt]. simpl. unfold _update. munfold.
      apply (forEach_listener_respects env R); try done.
    + rewrite Hok. simpl. unfold sched_ok. simpl. by rewrite Ht.
  - intros fuel eventType eventArgs.
    destruct (emit env fuel eventType eventArgs w) as [o|] eqn:Hemit; [|done].
    apply (emit_respects env R) in Hemit; try done. by apply Hemit.
Qed.

Lemma one_tick_witness :
  let env := example_env thrower in
  let w := burst [("timestamp", num 1)] (subscribe 0 constructor) in
  sched_ok w ∧ sched_ok (animation_frame env w).
Proof.
  intros env w.
  assert (H : sched_ok w) by (vm_compute; split; [reflexivity|reflexivity]).
  split; [exact H|].
  exact (proj1 (proj2 (one_tick_at_most env w H))).
Defined.

(** ** Emitting events *)

Lemma emit_loop_all env eventType eventArgs todo :
  ∀ passed fuel w,
    default [] (callbacks w !! eventType) = passed ++ todo →
    (∀ c, c ∈ todo →
       forallb leaves_callbacks (code env c [VStr eventType; eventArgs])
       = true) →
    length todo < fuel →
    ∃ w', emit_loop env fuel eventType eventArgs (length passed) w
          = Some (Normal tt w') ∧
          callbacks w' = callbacks w ∧
          trace w' = trace w ++
            ((λ c, EvCallback c eventType eventArgs) <$> todo).
Proof.
  induction todo as [|b todo IH]; intros passed fuel w Hreg Hquiet Hfuel.
  - destruct fuel as [|fuel]; [simpl in Hfuel; lia|]. simpl.
    rewrite Hreg, app_nil_r, lookup_ge_None_2 by done.
    exists w. by rewrite app_nil_r.
  - destruct fuel as [|fuel]; [simpl in Hfuel; lia|]. simpl.
    rewrite Hreg.
    rewrite (list_lookup_middle passed todo b (length passed) eq_refl).
    unfold call.
    destruct (run_leaves_callbacks env
                (code env b [VStr eventType; eventArgs])
                (log (EvCallback b eventType eventArgs) w))
      as (w1 & -> & Hcb1 & Htr1).
    { apply Hquiet. by left. }
    destruct (IH (passed ++ [b]) fuel w1) as (w' & Hloop & Hcb & Htr).
    + rewrite Hcb1. simpl. rewrite Hreg. by rewrite <- app_assoc.
    + intros c Hc. apply Hquiet. by right.
    + simpl in Hfuel. lia.
    + rewrite length_app in Hloop. simpl in Hloop.
      rewrite Nat.add_1_r in Hloop.
      exists w'. split; [done|]. simpl in Hcb1. split; [congruence|].
      rewrite Htr, Htr1. simpl. by rewrite <- app_assoc.
Qed.

(** X6.  Under an event type that is no inherited name, or that has callbacks
    registered: when no callback throws or changes the callback registry,
    [emit] calls every callback registered for the event type once, in
    registration order, then bumps the counter [loader-<eventType>], and
    returns; with no callback registered it only bumps the counter.  Under a
    name the registry inherits and holds no array for, [emit] is a
    [TypeError]: nothing is called and the counter is not bumped. *)
Theorem emit_notifies_in_registration_order env fuel eventType eventArgs w :
  (inherited_name eventType = false ∨ is_Some (callbacks w !! eventType) →
   (∀ c, c ∈ default [] (callbacks w !! eventType) →
      forallb leaves_callbacks (code env c [VStr eventType; eventArgs])
      = true) →
   length (default [] (callbacks w !! eventType)) < fuel →
   ∃ w', emit env fuel eventType eventArgs w = Some (Normal tt w') ∧
         callbacks w' = callbacks w ∧
         trace w' = trace w ++
           ((λ c, EvCallback c eventType eventArgs)
              <$> default [] (callbacks w !! eventType))
           ++ [EvBump ("loader-" +:+ eventType)]) ∧
  (inherited_name eventType = true → callbacks w !! eventType = None →
   emit env fuel eventType eventArgs w = Some (Thrown TypeError w)).
Proof.
  split.
  - intros Hown Hquiet Hfuel. unfold emit.
    assert (Hget : callbacks_get eventType w =
              match callbacks w !! eventType with
              | Some cbs => Registered cbs
              | None => Unregistered
              end).
    { destruct Hown as [Hname|[cbs Hreg]]; [by apply callbacks_get_own|].
      unfold callbacks_get. by rewrite Hreg. }
    rewrite Hget.
    destruct (callbacks w !! eventType) as [cbs|] eqn:Hreg.
    + destruct (emit_loop_all env eventType eventArgs cbs [] fuel w)
        as (w' & Hloop & Hcb & Htr); [by rewrite Hreg|done|done|].
      simpl in Hloop. rewrite Hloop. simpl.
      eexists. split; [done|]. split; [done|]. simpl.
      by rewrite Htr, app_assoc.
    + simpl. eexists. split; [done|]. by split.
  - intros Hname Hreg. unfold emit, callbacks_get, inherited_name in *.
    rewrite Hreg. by destruct (Object_prototype_get _ _).
Qed.

Lemma emit_notifies_witness :
  let env := example_env no_code in
  let w := registering "finish" [3; 8] constructor in
  (∃ w', emit env 3 "finish" VNull w = Some (Normal tt w') ∧
         trace w' = [EvCallback 3 "finish" VNull; EvCallback 8 "finish" VNull;
                     EvBump "loader-finish"]) ∧
  emit env 3 "constructor" VNull w = Some (Thrown TypeError w).
Proof.
  intros env w.
  destruct (emit_notifies_in_registration_order env 3 "finish" VNull w)
    as [Hcalls _].
  destruct (emit_notifies_in_registration_order env 3 "constructor" VNull w)
    as [_ Hthrows].
  split.
  - destruct Hcalls as (w' & Hemit & _ & Htr).
    + by left.
    + intros c _. reflexivity.
    + vm_compute. lia.
    + exists w'. split; [exact Hemit|]. rewrite Htr. by vm_compute.
  - apply Hthrows; reflexivity.
Defined.

Lemma on_registered eventType cb cbs w :
  callbacks w !! eventType = Some cbs →
  on eventType cb w =
  Normal tt (with_callbacks (<[eventType := cbs ++ [cb]]> (callbacks w)) w).
Proof. intros Hreg. unfold on, callbacks_get. munfold. by rewrite Hreg. Qed.

Lemma emit_loop_never_ends env eventType eventArgs cb :
  code env cb [VStr eventType; eventArgs] = [CallOn eventType cb] →
  ∀ fuel passed todo w,
    callbacks w !! eventType = Some (passed ++ todo ++ [cb]) →
    Forall (λ c, forallb leaves_callbacks
                   (code env c [VStr eventType; eventArgs]) = true
                 ∨ c = cb) todo →
    emit_loop env fuel eventType eventArgs (length passed) w = None.
Proof.
  intros Hcode. induction fuel as [|fuel IH]; intros passed todo w Hreg Htodo;
    [done|].
  assert (Hself : ∀ w0 : World,
    callbacks w0 !! eventType = callbacks w !! eventType →
    call env cb [VStr eventType; eventArgs] w0 =
    Normal tt (with_callbacks
                 (<[eventType := (passed ++ todo ++ [cb]) ++ [cb]]>
                    (callbacks w0)) w0)).
  { intros w0 Hw0. unfold call. rewrite Hcode. simpl. munfold.
    rewrite (on_registered eventType cb (passed ++ todo ++ [cb]));
      [done|by rewrite Hw0]. }
  simpl. rewrite Hreg. simpl.
  destruct todo as [|c todo]; simpl.
  - rewrite (list_lookup_middle passed [] cb (length passed) eq_refl).
    rewrite Hself by done.
    replace (S (length passed)) with (length (passed ++ [cb]))
      by (rewrite length_app; simpl; lia).
    apply (IH (passed ++ [cb]) []); [|done].
    simpl. rewrite lookup_insert_eq.
    by rewrite <- !app_assoc.
  - rewrite (list_lookup_middle passed (todo ++ [cb]) c (length passed)
               eq_refl).
    apply Forall_cons in Htodo as [Hc Htodo].
    replace (S (length passed)) with (length (passed ++ [c]))
      by (rewrite length_app; simpl; lia).
    destruct Hc as [Hquiet| ->].
    + unfold call.
      destruct (run_leaves_callbacks env
                  (code env c [VStr eventType; eventArgs])
                  (log (EvCallback c eventType eventArgs) w) Hquiet)
        as (w1 & -> & Hcb1 & _).
      apply (IH (passed ++ [c]) todo); [|done].
      rewrite Hcb1. simpl. rewrite Hreg. by rewrite <- !app_assoc.
    + rewrite Hself by done.
      apply (IH (passed ++ [cb]) (todo ++ [cb])).
      * simpl. rewrite lookup_insert_eq.
        f_equal. rewrite <- !app_assoc. simpl. by rewrite <- ?app_assoc.
      * apply Forall_app. split; [done|]. constructor; [by right|done].
Qed.

(** X7.  The loop of [emit] walks the registered array itself: when the last
    callback registered for the event type registers itself again each time it
    runs (and the callbacks before it leave the registry alone), [emit] never
    returns, however many calls it is allowed. *)
Theorem emit_never_returns_when_a_callback_reregisters
    env eventType eventArgs cb before w fuel :
  code env cb [VStr eventType; eventArgs] = [CallOn eventType cb] →
  callbacks w !! eventType = Some (before ++ [cb]) →
  (∀ c, c ∈ before →
     forallb leaves_callbacks (code env c [VStr eventType; eventArgs])
     = true) →
  emit env fuel eventType eventArgs w = None.
Proof.
  intros Hcode Hreg Hbefore. unfold emit, callbacks_get. rewrite Hreg.
  assert (Hloop : emit_loop env fuel eventType eventArgs 0 w = None).
  { apply (emit_loop_never_ends env eventType eventArgs cb Hcode
             fuel [] before w); [done|].
    apply Forall_forall. intros c Hc. left. by apply Hbefore. }
  by rewrite Hloop.
Qed.

Lemma emit_never_returns_witness :
  emit (example_env reregistering) 1000 "update" VNull
       (registering "update" [5; 0] constructor) = None.
Proof.
  apply (emit_never_returns_when_a_callback_reregisters
           (example_env reregistering) "update" VNull 0 [5]).
  - reflexivity.
  - reflexivity.
  - intros c Hc. apply list_elem_of_In in Hc. destruct Hc as [<-|[]].
    reflexivity.
Defined.

(** ** A listener that throws *)

Lemma run_throws_in_listener env body e rest w :
  forallb leaves_listeners body = true →
  ∃ w', run env (body ++ Throw e :: rest) w = Thrown (Raised e) w' ∧
        write_step w w'.
Proof.
  revert w. induction body as [|c body IH]; intros w; simpl.
  { eexists. split; [done|]. apply write_step_refl. }
  intros [Hc Hbody]%andb_true_iff.
  destruct (exec_leaves_listeners env c w Hc) as (w1 & Hrun & Hstep).
  destruct (IH w1 Hbody) as (w2 & Hrun2 & Hstep2).
  exists w2. munfold. rewrite Hrun. split; [done|].
  by eapply write_step_trans.
Qed.

Lemma forEach_listener_throw env w0 l after body e rest :
  (∀ args, code env l args = body ++ Throw e :: rest) →
  forallb leaves_listeners body = true →
  ∀ todo passed w,
    listeners w0 = passed ++ todo ++ l :: after →
    (∀ o, o ∈ todo →
          ∀ args, forallb leaves_listeners (code env o args) = true) →
    flushing w0 w →
    ∃ w' gs,
      forEach_listener env (length todo + S (length after)) (length passed) w
      = Thrown (Raised e) w' ∧
      flushing w0 w' ∧
      trace w' = trace w ++ zip_with EvListener (todo ++ [l]) gs ∧
      length gs = S (length todo) ∧
      _version w ≤ _version w'.
Proof.
  intros Hcode Hbody.
  induction todo as [|o todo IH]; intros passed w Hl Hsafe Hf.
  - simpl. munfold. destruct Hf as [Hlw Hf]. rewrite Hlw, Hl. simpl.
    rewrite (list_lookup_middle passed after l (length passed) eq_refl).
    unfold call. rewrite Hcode.
    destruct (run_throws_in_listener env body e rest
                (log (EvListener l (_version w)) w) Hbody)
      as (w' & -> & Hstep).
    destruct (flushing_step w0 (log (EvListener l (_version w)) w) w')
      as [Hf' Hv']; [by split|done|].
    exists w', [_version w]. destruct Hstep as (_ & Htr & _).
    split; [done|]. split; [done|]. split; [by rewrite Htr|].
    split; [done|]. exact Hv'.
  - simpl in Hl |- *. munfold. destruct Hf as [Hlw Hf]. rewrite Hlw, Hl.
    rewrite (list_lookup_middle passed (todo ++ l :: after) o
               (length passed) eq_refl).
    unfold call.
    destruct (run_leaves_listeners env
                (code env o [VNum (Num.of_nat (_version w))])
                (log (EvListener o (_version w)) w))
      as (w1 & -> & Hstep).
    { apply Hsafe. by left. }
    destruct (flushing_step w0 (log (EvListener o (_version w)) w) w1)
      as [Hf1 Hv1]; [by split|done|].
    destruct (IH (passed ++ [o]) w1) as (w' & gs & Hrun & Hf' & Htr & Hgs & Hv').
    + rewrite Hl. by rewrite <- app_assoc.
    + intros o' Ho'. apply Hsafe. by right.
    + done.
    + rewrite length_app in Hrun. simpl in Hrun.
      rewrite Nat.add_1_r in Hrun.
      exists w', (_version w :: gs). destruct Hstep as (_ & Htr1 & _).
      split; [done|]. split; [done|].
      split; [rewrite Htr, Htr1; simpl; by rewrite <- app_assoc|].
      split; [simpl; congruence|]. simpl in Hv1. lia.
Qed.

(** X11.  A listener that throws ends the flush: the handle has been cleared, the
    listeners subscribed before it have been notified in order, and the
    listeners subscribed after it are not notified in that flush. *)
Theorem flush_stops_at_throwing_listener
    env w h before l after body e rest :
  _updateTimer w = Some h → raf_pending w = [h] →
  listeners w = before ++ l :: after →
  (∀ o, o ∈ before →
        ∀ args, forallb leaves_listeners (code env o args) = true) →
  (∀ args, code env l args = body ++ Throw e :: rest) →
  forallb leaves_listeners body = true →
  ∃ gs,
    trace (animation_frame env w) =
      trace w ++ zip_with EvListener (before ++ [l]) gs ∧
    length gs = S (length before) ∧
    (_version (animation_frame env w) = _version w →
     _updateTimer (animation_frame env w) = None).
Proof.
  intros Ht Hp Hl Hsafe Hcode Hbody.
  set (w0 := with_updateTimer None (with_raf (raf_next w) [] w)).
  assert (Hf0 : flushing w0 w0) by (split; [done|left; done]).
  destruct (forEach_listener_throw env w0 l after body e rest Hcode Hbody
              before [] w0 Hl Hsafe Hf0)
    as (w' & gs & Hrun & Hf' & Htr & Hgs & Hv').
  assert (Hframe : animation_frame env w = w').
  { unfold animation_frame. rewrite Hp. simpl. unfold _update. munfold.
    simpl. fold w0. rewrite Hl, length_app. simpl. simpl in Hrun.
    by rewrite Hrun. }
  rewrite Hframe. exists gs. split; [done|]. split; [done|].
  destruct Hf' as [_ [(_ & Hu & _)|(Hv & _)]]; [done|].
  simpl in Hv. lia.
Qed.

Lemma flush_stops_witness :
  let env := example_env failing_listener in
  let w := burst [("timestamp", num 1)]
             (subscribe 2 (subscribe 1 (subscribe 0 constructor))) in
  trace (animation_frame env w) = [EvListener 0 1; EvListener 1 1] ∧
  _updateTimer (animation_frame env w) = None.
Proof.
  intros env w.
  destruct (flush_stops_at_throwing_listener env w 1%positive [0] 1 [2]
              [] (VStr "boom") [])
    as (gs & Htr & Hgs & Hu); try reflexivity.
  - intros o Ho args. apply list_elem_of_In in Ho. destruct Ho as [<-|[]].
    reflexivity.
  - split; [by vm_compute|]. apply Hu. by vm_compute.
Defined.

(** ** Seeking and loading metadata *)

Lemma stored_after_set key v w :
  key ≠ "__proto__" →
  get key (set key v w) = v ∨ strict_equals (get key (set key v w)) v = true.
Proof.
  intros Hk. destruct (effective key v w) eqn:He.
  - left. by apply get_set_effective.
  - right. rewrite set_ineffective by done.
    unfold effective in He. by apply negb_false_iff in He.
Qed.




(** X14.  Without metadata, or when a log bound is not a finite number, [seek]
    stores its argument as it is, whatever it is. *)
Theorem seek_without_finite_bounds env timestamp w :
  truthy (get "metadata" w) = false
  ∨ Number_isFinite (returned (getLogStartTime env) w) = false
  ∨ Number_isFinite (returned getLogEndTime w) = false →
  ∃ w', seek env timestamp w = Normal tt w' ∧
        (get "timestamp" w' = timestamp ∨
         strict_equals (get "timestamp" w') timestamp = true).
Proof.
  intros Hcase. destruct (seek_run env timestamp w) as (w1 & Hrun & _).
  eexists. split; [exact Hrun|].
  assert (Htarget : seek_target env w timestamp = timestamp).
  { unfold seek_target. destruct (truthy (get "metadata" w)); [|done].
    destruct Hcase as [?|[-> | ->]]; [done|done|by rewrite andb_false_r]. }
  rewrite Htarget. by apply stored_after_set.
Qed.

Lemma seek_without_bounds_witness :
  let env := example_env no_code in
  truthy (get "metadata" constructor) = false ∧
  ∃ w', seek env (num 250) constructor = Normal tt w' ∧
        get "timestamp" w' = num 250.
Proof.
  intros env.
  assert (H : truthy (get "metadata" constructor) = false) by reflexivity.
  split; [exact H|].
  destruct (seek_without_finite_bounds env (num 250) constructor (or_introl H))
    as (w' & Hrun & Hstored).
  exists w'. split; [exact Hrun|].
  destruct Hstored as [Heq|Heq]; [exact Heq|].
  rewrite strict_equals_sym in Heq.
  apply strict_equals_truthy in Heq; [|reflexivity]. symmetry. exact Heq.
Defined.

Lemma _setMetadata_run env metadata w :
  nullish metadata = false →
  _setMetadata env metadata w =
    let w1 := set "metadata" metadata w in
    let streams := get_prop (heap w) metadata "streams" in
    let w2 :=
      if truthy streams && (0 <? size (own_props (heap w) streams))%nat
      then set "streamSettings" streams w1 else w1 in
    let timestamp := get "timestamp" w2 in
    let newTimestamp :=
      if Number_isFinite timestamp then timestamp
      else get_prop (heap w) metadata "start_time" in
    if Number_isFinite newTimestamp then seek env newTimestamp w2
    else Normal tt w2.
Proof.
  intros Hn. unfold _setMetadata. munfold. rewrite Hn. cbv beta iota zeta.
  rewrite set_heap.
  destruct (truthy _ && _); cbv beta iota zeta; rewrite ?set_heap;
    by destruct (Number_isFinite _).
Qed.


Lemma clamp_within t lo hi :
  Num.finite t = true → Num.finite lo = true → Num.finite hi = true →
  Num.le lo hi →
  Num.le lo (Num.max lo (Num.min hi t)) ∧
  Num.le (Num.max lo (Num.min hi t)) hi.
Proof.
  intros Ht Hlo Hhi Hle.
  pose proof (NumFacts.finite_not_nan _ Ht) as Nt.
  pose proof (NumFacts.finite_not_nan _ Hlo) as Nlo.
  pose proof (NumFacts.finite_not_nan _ Hhi) as Nhi.
  pose proof (NumFacts.finite_not_nan _ (NumFacts.min_finite hi t Hhi Ht))
    as Nm.
  destruct (NumFacts.min_glb hi t Nhi Nt) as (Hmh & _ & _).
  destruct (NumFacts.max_lub lo (Num.min hi t) Nlo Nm) as (Hl & _ & Hr).
  split; [done|]. destruct Hr; eauto using NumFacts.le_trans.
Qed.

(** X16.  Loading metadata leaves the playhead inside the log: when the metadata
    object has a finite, non-zero start time [s] and a finite end time [e]
    with [s + TIME_WINDOW <= e], then after [_setMetadata] the timestamp is a
    number between [s + TIME_WINDOW] and [e], whether the loader had a
    timestamp before or not. *)
Theorem _setMetadata_puts_timestamp_within_bounds env w r props s e :
  start_memo_coherent env w → end_memo_coherent w →
  heap w !! r = Some (OPlain props) →
  props !! "start_time" = Some (VNum s) →
  props !! "end_time" = Some (VNum e) →
  truthy (VNum s) = true → Num.finite s = true →
  Num.finite (Num.add s (TIME_WINDOW env)) = true →
  Num.finite e = true →
  Num.le (Num.add s (TIME_WINDOW env)) e →
  ∃ w' t,
    _setMetadata env (VRef r) w = Normal tt w' ∧
    get "metadata" w' = VRef r ∧
    get "timestamp" w' = VNum t ∧
    Num.le (Num.add s (TIME_WINDOW env)) t ∧ Num.le t e.
Proof.
  intros Hcs Hce Hr Hs He Hts Fs Flo Fe Hle.
  rewrite _setMetadata_run by done. simpl.
  assert (Hstart : get_prop (heap w) (VRef r) "start_time" = VNum s).
  { unfold get_prop. simpl. by rewrite Hr, Hs. }
  assert (Hend : get_prop (heap w) (VRef r) "end_time" = VNum e).
  { unfold get_prop. simpl. by rewrite Hr, He. }
  set (w1 := set "metadata" (VRef r) w).
  set (streams := get_prop (heap w) (VRef r) "streams").
  set (w2 := if truthy streams && _ then _ else w1).
  assert (Hmd : get "metadata" w2 = VRef r).
  { unfold w2. destruct (truthy streams && _);
      [rewrite set_get_ne by done|]; by apply get_set_ref. }
  assert (Hheap : heap w2 = heap w).
  { unfold w2, w1. destruct (truthy streams && _); by rewrite ?set_heap. }
  assert (Hms : memo_getLogStartTime w2 = memo_getLogStartTime w).
  { unfold w2, w1. destruct (truthy streams && _);
      rewrite ?(proj1 (set_memos _ _ _)); done. }
  assert (Hme : memo_getLogEndTime w2 = memo_getLogEndTime w).
  { unfold w2, w1. destruct (truthy streams && _);
      rewrite ?(proj1 (proj2 (set_memos _ _ _))); done. }
  assert (Hlo : returned (getLogStartTime env) w2
                = VNum (Num.add s (TIME_WINDOW env))).
  { apply getLogStartTime_shifts.
    - intros ins out. rewrite Hms, Hheap. apply Hcs.
    - by rewrite Hmd.
    - by rewrite Hmd, Hheap.
    - done. }
  assert (Hhi : returned getLogEndTime w2 = VNum e).
  { rewrite getLogEndTime_unshifted.
    - by rewrite Hmd, Hheap.
    - intros ins out. rewrite Hme, Hheap. apply Hce.
    - by rewrite Hmd. }
  rewrite Hstart.
  assert (Hnew : ∃ tn, (if Number_isFinite (get "timestamp" w2)
                        then get "timestamp" w2 else VNum s) = VNum tn
                       ∧ Num.finite tn = true).
  { destruct (get "timestamp" w2) as [| | |x| | |] eqn:Hts2; simpl; eauto.
    destruct (Num.finite x) eqn:Fx; eauto. }
  destruct Hnew as (tn & -> & Ftn). simpl. rewrite Ftn.
  destruct (seek_run env (VNum tn) w2) as (w3 & -> & Hc3 & _).
  assert (Htarget : seek_target env w2 (VNum tn)
            = VNum (Num.max (Num.add s (TIME_WINDOW env)) (Num.min e tn))).
  { unfold seek_target. rewrite Hmd, Hlo, Hhi. simpl. by rewrite Flo, Fe. }
  rewrite Htarget.
  set (c := Num.max (Num.add s (TIME_WINDOW env)) (Num.min e tn)).
  destruct (clamp_within tn _ e Ftn Flo Fe Hle) as [Hc1 Hc2]. fold c in Hc1, Hc2.
  assert (Hstored : ∃ t, get "timestamp" (set "timestamp" (VNum c) w3) = VNum t
                         ∧ Num.eqb t c = true).
  { destruct (stored_after_set "timestamp" (VNum c) w3 ltac:(done)) as [->|Heq].
    - exists c. split; [done|]. apply NumFacts.eqb_le.
      pose proof (NumFacts.le_not_nan _ _ Hc1) as [_ Nc].
      split; by apply NumFacts.le_refl.
    - destruct (get "timestamp" (set "timestamp" (VNum c) w3)); try done.
      eauto. }
  destruct Hstored as (t & Hget & [Htc Hct]%NumFacts.eqb_le).
  eexists _, t. split; [done|].
  split.
  { rewrite set_get_ne by done. rewrite (core_get _ _ "metadata" Hc3). done. }
  split; [done|]. split; eauto using NumFacts.le_trans.
Qed.

Lemma _setMetadata_within_bounds_witness :
  let env := example_env no_code in
  let w := (literal {[ "start_time" := num 100; "end_time" := num 200 ]}
                    constructor).2 in
  ∃ w' t,
    _setMetadata env (VRef 1%positive) w = Normal tt w' ∧
    get "timestamp" w' = VNum t ∧
    Num.le (Num.of_Z 105) t ∧ Num.le t (Num.of_Z 200).
Proof.
  intros env w.
  set (props := {[ "start_time" := num 100; "end_time" := num 200 ]}
                : gmap string value).
  assert (Hcs : start_memo_coherent env w) by (intros ins out; discriminate).
  assert (Hce : end_memo_coherent w) by (intros ins out; discriminate).
  assert (Hr : heap w !! 1%positive = Some (OPlain props))
    by (vm_compute; reflexivity).
  assert (Hs : props !! "start_time" = Some (VNum (Num.of_Z 100)))
    by (vm_compute; reflexivity).
  assert (He : props !! "end_time" = Some (VNum (Num.of_Z 200)))
    by (vm_compute; reflexivity).
  assert (Hts : truthy (VNum (Num.of_Z 100)) = true)
    by (vm_compute; reflexivity).
  assert (Fs : Num.finite (Num.of_Z 100) = true) by (vm_compute; reflexivity).
  assert (Hsum : Num.add (Num.of_Z 100) (TIME_WINDOW env) = Num.of_Z 105)
    by (vm_compute; reflexivity).
  assert (Flo : Num.finite (Num.add (Num.of_Z 100) (TIME_WINDOW env)) = true)
    by (vm_compute; reflexivity).
  assert (Fe : Num.finite (Num.of_Z 200) = true) by (vm_compute; reflexivity).
  assert (Hle : Num.le (Num.add (Num.of_Z 100) (TIME_WINDOW env))
                       (Num.of_Z 200))
    by (vm_compute; reflexivity).
  destruct (_setMetadata_puts_timestamp_within_bounds env w 1%positive
              props (Num.of_Z 100) (Num.of_Z 200)
              Hcs Hce Hr Hs He Hts Fs Flo Fe Hle)
    as (w' & t & Hrun & _ & Hget & Hlo & Hhi).
  rewrite Hsum in Hlo.
  exists w', t. split; [exact Hrun|]. split; [exact Hget|].
  split; [exact Hlo|exact Hhi].
Defined.

(** ** A listener that unsubscribes during the flush *)

Lemma forEach_listener_split env a b index w :
  forEach_listener env (a + b) index w =
  match forEach_listener env a index w with
  | Normal _ w1 => forEach_listener env b (index + a) w1
  | Thrown e w1 => Thrown e w1
  end.
Proof.
  revert index w. induction a as [|a IH]; intros index w; simpl.
  { by rewrite Nat.add_0_r. }
  munfold. destruct (listeners w !! index) as [o|].
  - destruct (call env o _ _) as [[] w1|e w1]; [|done].
    rewrite IH. by replace (S index + a) with (index + S a) by lia.
  - rewrite IH. by replace (S index + a) with (index + S a) by lia.
Qed.

Lemma forEach_listener_step env remaining index w o :
  listeners w !! index = Some o →
  forEach_listener env (S remaining) index w =
  match call env o [VNum (Num.of_nat (_version w))]
             (log (EvListener o (_version w)) w) with
  | Normal _ w' => forEach_listener env remaining (S index) w'
  | Thrown e w' => Thrown e w'
  end.
Proof. intros Ho. simpl. munfold. by rewrite Ho. Qed.

Lemma forEach_listener_range env w0 :
  ∀ remaining index w,
    (∀ i o, index ≤ i → i < index + remaining →
            listeners w0 !! i = Some o →
            ∀ args, forallb leaves_listeners (code env o args) = true) →
    flushing w0 w →
    ∃ w' gs,
      forEach_listener env remaining index w = Normal tt w' ∧
      flushing w0 w' ∧
      trace w' = trace w ++
        zip_with EvListener (take remaining (drop index (listeners w0))) gs ∧
      length gs = length (take remaining (drop index (listeners w0))) ∧
      _version w ≤ _version w'.
Proof.
  induction remaining as [|remaining IH]; intros index w Hsafe Hf.
  { exists w, []. simpl. rewrite app_nil_r.
    do 4 (split; [done|]). lia. }
  simpl. munfold. destruct Hf as [Hl Hf]. rewrite Hl.
  destruct (listeners w0 !! index) as [o|] eqn:Ho.
  - unfold call.
    destruct (run_leaves_listeners env
                (code env o [VNum (Num.of_nat (_version w))])
                (log (EvListener o (_version w)) w))
      as (w1 & -> & Hstep).
    { apply (Hsafe index o); [lia|lia|done]. }
    destruct (flushing_step w0 (log (EvListener o (_version w)) w) w1)
      as [Hf1 Hv1]; [by split|done|].
    destruct (IH (S index) w1) as (w' & gs & Hrun & Hf' & Htr & Hgs & Hv');
      [|done|].
    { intros i o' Hi1 Hi2. apply Hsafe; lia. }
    exists w', (_version w :: gs). destruct Hstep as (_ & Htr1 & _).
    rewrite (drop_S _ _ _ Ho). simpl.
    split; [done|]. split; [done|].
    split; [rewrite Htr, Htr1; simpl; by rewrite <- app_assoc|].
    split; [congruence|]. simpl in Hv1. lia.
  - destruct (IH (S index) w) as (w' & gs & Hrun & Hf' & Htr & Hgs & Hv');
      [|done|].
    { intros i o' Hi1 Hi2. apply Hsafe; lia. }
    apply lookup_ge_None in Ho.
    rewrite drop_ge in Htr, Hgs by lia.
    exists w', gs. rewrite drop_ge by lia.
    rewrite take_nil in Htr, Hgs |- *. do 4 (split; [done|]). lia.
Qed.

(** X12.  [forEach] reads the subscriber array while listeners change it: when a
    listener unsubscribes itself during the flush, the listener subscribed
    right after it moves into its place and is not notified in that flush,
    though it stays subscribed; the other listeners are notified in order. *)
Theorem flush_skips_listener_after_one_that_leaves
    env w h before l next after :
  _updateTimer w = Some h → raf_pending w = [h] →
  listeners w = before ++ l :: next :: after →
  l ∉ before →
  (∀ args, code env l args = [CallUnsubscribe l]) →
  (∀ o, o ∈ before ++ after →
        ∀ args, forallb leaves_listeners (code env o args) = true) →
  ∃ gs,
    trace (animation_frame env w) =
      trace w ++ zip_with EvListener (before ++ l :: after) gs ∧
    length gs = length (before ++ l :: after) ∧
    listeners (animation_frame env w) = before ++ next :: after.
Proof.
  intros Ht Hp Hl Hnot Hcode Hsafe.
  set (w0 := with_updateTimer None (with_raf (raf_next w) [] w)).
  set (L' := before ++ next :: after).
  assert (Hf0 : flushing w0 w0) by (split; [done|left; done]).
  assert (Hl0 : listeners w0 = before ++ l :: next :: after) by done.
  (* the listeners before [l] *)
  destruct (forEach_listener_range env w0 (length before) 0 w0)
    as (w1 & gs1 & Hrun1 & Hf1 & Htr1 & Hgs1 & _); [|done|].
  { intros i o _ Hi Ho. apply Hsafe. apply elem_of_app. left.
    rewrite Hl0, lookup_app_l in Ho by (simpl in Hi; lia).
    by eapply list_elem_of_lookup_2. }
  rewrite Hl0, drop_0, take_app_length in Htr1, Hgs1.
  (* [l] itself *)
  set (w2 := unsubscribe l (log (EvListener l (_version w1)) w1)).
  assert (Hl2 : listeners w2 = L').
  { unfold w2, unsubscribe. simpl. destruct Hf1 as [-> _]. rewrite Hl0.
    by apply remove_first_earliest. }
  set (w0' := with_listeners L' w0).
  assert (Hf2 : flushing w0' w2).
  { split; [done|]. destruct Hf1 as [_ Hf1]. exact Hf1. }
  (* the listeners after [next] *)
  destruct (forEach_listener_range env w0' (S (length after))
              (S (length before)) w2)
    as (w3 & gs3 & Hrun3 & Hf3 & Htr3 & Hgs3 & _); [|done|].
  { intros i o Hi1 Hi2 Ho. apply Hsafe. apply elem_of_app. right.
    change (listeners w0') with (before ++ next :: after) in Ho.
    rewrite lookup_app_r in Ho by lia.
    destruct (i - length before) as [|k] eqn:Hk; [lia|]. simpl in Ho.
    by eapply list_elem_of_lookup_2. }
  change (listeners w0') with (before ++ next :: after) in Htr3, Hgs3.
  replace (drop (S (length before)) (before ++ next :: after)) with after
    in Htr3, Hgs3.
  2:{ replace (before ++ next :: after) with ((before ++ [next]) ++ after)
        by (by rewrite <- app_assoc).
      rewrite drop_app_length'; [done|].
      rewrite length_app. simpl. lia. }
  rewrite take_ge in Htr3, Hgs3 by lia.
  assert (Hframe : animation_frame env w = w3).
  { unfold animation_frame. rewrite Hp. simpl. unfold _update. munfold.
    simpl. fold w0. rewrite Hl, length_app. simpl.
    rewrite forEach_listener_split, Hrun1. cbv beta iota.
    rewrite Nat.add_0_l. destruct Hf1 as [Hl1 _].
    rewrite (forEach_listener_step env _ _ w1 l).
    2:{ rewrite Hl1, Hl0. by apply list_lookup_middle. }
    unfold call. rewrite Hcode.
    change (run env [CallUnsubscribe l]
              (log (EvListener l (_version w1)) w1)) with (Normal tt w2).
    cbv beta iota. by rewrite Hrun3. }
  rewrite Hframe. exists (gs1 ++ _version w1 :: gs3).
  split.
  { rewrite Htr3. unfold w2. simpl. rewrite Htr1.
    rewrite zip_with_app by done. simpl. by rewrite <- !app_assoc. }
  split.
  { rewrite !length_app. simpl. lia. }
  destruct Hf3 as [-> _]. done.
Qed.

Lemma flush_skips_witness :
  let env := example_env leaving in
  let w := burst [("timestamp", num 1)]
             (subscribe 3 (subscribe 2 (subscribe 1 (subscribe 0
                constructor)))) in
  trace (animation_frame env w)
  = [EvListener 0 1; EvListener 1 1; EvListener 3 1] ∧
  listeners (animation_frame env w) = [0; 2; 3].
Proof.
  intros env w.
  destruct (flush_skips_listener_after_one_that_leaves env w 1%positive
              [0] 1 2 [3])
    as (gs & Htr & Hgs & Hl); try reflexivity.
  - intros Hin. apply list_elem_of_In in Hin. destruct Hin as [Hin|[]].
    discriminate.
  - intros o Ho args. apply list_elem_of_In in Ho.
    destruct Ho as [<-|[<-|[]]]; reflexivity.
  - split; [by vm_compute|exact Hl].
Defined.
